(** * The streaming conversation controller of the results page

    A shallow embedding of the [ResultsPage] component: the React state of the
    component, the module-level [prevEventSource] reference, the event sources
    it opens, and the handlers [makeSearch], [eventSource.onmessage],
    [eventSource.onerror] and [handleNewMessage], followed by the properties
    of the conversation they maintain. *)

From Stdlib Require Import ZArith.
From stdpp Require Import base numbers strings gmap option list.

Set Warnings "-register-all".

(** ** Values that come off the wire *)

(** What [JSON.parse] returns.  A number is kept as the text that JavaScript's
    [Number::toString] gives for it ("0" for both zeros): the component only
    ever tests a number for truthiness, concatenates it to a string or stores
    it.  An object is the list of its own properties. *)
Inductive json : Type :=
| JNull
| JBool (b : bool)
| JNum (repr : string)
| JStr (s : string)
| JArr (items : list json)
| JObj (fields : list (string * json)).

(** A JavaScript value as the component sees one: [None] is [undefined]. *)
Definition jsvalue : Type := option json.

Inductive exn : Type := SyntaxError | TypeError.

Inductive res (A : Type) : Type :=
| Val (a : A)
| Throws (e : exn).
Arguments Val {A} a.
Arguments Throws {A} e.

Definition bind {A B : Type} (r : res A) (k : A -> res B) : res B :=
  match r with
  | Val a => k a
  | Throws e => Throws e
  end.

Notation "'let*' x ':=' r 'in' k" := (bind r (fun x => k))
  (at level 10, x name, r at level 100, k at level 200).

Fixpoint assoc (k : string) (fs : list (string * json)) : jsvalue :=
  match fs with
  | [] => None
  | (k', v) :: rest => if decide (k = k') then Some v else assoc k rest
  end.

(** [o.k] for the property names the component reads ([Err], [Ok],
    [query_id], [snippets] and the snippet fields): reading a property of
    [null] throws, a primitive or an array has none of them. *)
Definition getProp (o : json) (k : string) : res jsvalue :=
  match o with
  | JNull => Throws TypeError
  | JObj fs => Val (assoc k fs)
  | _ => Val None
  end.

(** [o?.k] *)
Definition getPropOpt (o : jsvalue) (k : string) : res jsvalue :=
  match o with
  | None | Some JNull => Val None
  | Some v => getProp v k
  end.

(** JavaScript truthiness, as tested by [if (newData.Err)] and [||]. *)
Definition truthy (v : jsvalue) : bool :=
  match v with
  | None | Some JNull => false
  | Some (JBool b) => b
  | Some (JNum r) => negb (bool_decide (r = "0"))
  | Some (JStr s) => negb (bool_decide (s = ""))
  | Some (JArr _) | Some (JObj _) => true
  end.

(** [ToString], as applied by [+] to the right operand of a string. *)
Fixpoint ToString (v : json) : string :=
  match v with
  | JNull => "null"
  | JBool true => "true"
  | JBool false => "false"
  | JNum r => r
  | JStr s => s
  | JArr items =>
      (fix join (l : list json) : string :=
         match l with
         | [] => ""
         | x :: rest =>
             let sx := match x with JNull => "" | _ => ToString x end in
             match rest with
             | [] => sx
             | _ => sx +:+ "," +:+ join rest
             end
         end) items
  | JObj _ => "[object Object]"
  end.

Definition ToStringValue (v : jsvalue) : string :=
  match v with
  | None => "undefined"
  | Some j => ToString j
  end.

(** ** The data model *)

Inductive Author : Type := user | server.

Global Instance Author_eq_dec : EqDecision Author.
Proof. solve_decision. Defined.

(** The display projection of a raw snippet.  Every field holds whatever the
    wire record had under the renamed key, [undefined] included. *)
Record DisplaySnippet : Type := {
  path : jsvalue;
  code : jsvalue;
  repoName : jsvalue;
  lang : jsvalue;
  line : jsvalue;
}.

(** [ConversationMessage].  [author] is optional only because the spread of an
    absent last element yields an object without one. *)
Record ConversationMessage : Type := {
  author : option Author;
  text : option string;
  isLoading : bool;
  error : jsvalue;
  snippets : option (list DisplaySnippet);
}.

(** An element of the conversation array: the object's identity and its
    content.  Objects are never written to after their creation. *)
Definition Obj : Type := (nat * ConversationMessage)%type.

Record EventSource : Type := {
  es_url : string;
  es_closed : bool;
  es_i : nat;       (* the [i] of the [makeSearch] call that opened it *)
}.

(** Calls made on the event-stream collaborator, in order. *)
Inductive IO : Type :=
| Opened (es : nat) (url : string)
| Closed (es : nat).

Record State : Type := {
  query : string;                               (* the [query] prop *)
  pageIsLoading : bool;                         (* [isLoading] of the page *)
  conversation : list Obj;
  searchId : jsvalue;
  currentlyViewedSnippets : Z;
  prevEventSource : option nat;                 (* module-level variable *)
  sources : list EventSource;                   (* every source ever opened *)
  next_oid : nat;                               (* object allocation counter *)
  seenServerResponse : option nat;              (* dependency of the last effect run *)
  trace : list IO;
}.

Definition turns (st : State) : list ConversationMessage :=
  (conversation st).*2.

(** *** Field updates *)

Definition set_pageIsLoading (b : bool) (st : State) : State :=
  {| query := query st; pageIsLoading := b; conversation := conversation st;
     searchId := searchId st;
     currentlyViewedSnippets := currentlyViewedSnippets st;
     prevEventSource := prevEventSource st; sources := sources st;
     next_oid := next_oid st; seenServerResponse := seenServerResponse st;
     trace := trace st |}.

Definition set_searchId (v : jsvalue) (st : State) : State :=
  {| query := query st; pageIsLoading := pageIsLoading st;
     conversation := conversation st; searchId := v;
     currentlyViewedSnippets := currentlyViewedSnippets st;
     prevEventSource := prevEventSource st; sources := sources st;
     next_oid := next_oid st; seenServerResponse := seenServerResponse st;
     trace := trace st |}.

Definition set_currentlyViewedSnippets (k : Z) (st : State) : State :=
  {| query := query st; pageIsLoading := pageIsLoading st;
     conversation := conversation st; searchId := searchId st;
     currentlyViewedSnippets := k;
     prevEventSource := prevEventSource st; sources := sources st;
     next_oid := next_oid st; seenServerResponse := seenServerResponse st;
     trace := trace st |}.

Definition set_prevEventSource (p : option nat) (st : State) : State :=
  {| query := query st; pageIsLoading := pageIsLoading st;
     conversation := conversation st; searchId := searchId st;
     currentlyViewedSnippets := currentlyViewedSnippets st;
     prevEventSource := p; sources := sources st;
     next_oid := next_oid st; seenServerResponse := seenServerResponse st;
     trace := trace st |}.

Definition set_query (q : string) (st : State) : State :=
  {| query := q; pageIsLoading := pageIsLoading st;
     conversation := conversation st; searchId := searchId st;
     currentlyViewedSnippets := currentlyViewedSnippets st;
     prevEventSource := prevEventSource st; sources := sources st;
     next_oid := next_oid st; seenServerResponse := seenServerResponse st;
     trace := trace st |}.

Definition set_seenServerResponse (o : option nat) (st : State) : State :=
  {| query := query st; pageIsLoading := pageIsLoading st;
     conversation := conversation st; searchId := searchId st;
     currentlyViewedSnippets := currentlyViewedSnippets st;
     prevEventSource := prevEventSource st; sources := sources st;
     next_oid := next_oid st; seenServerResponse := o;
     trace := trace st |}.

Definition set_text (t : string) (m : ConversationMessage) : ConversationMessage :=
  {| author := author m; text := Some t; isLoading := isLoading m;
     error := error m; snippets := snippets m |}.

Definition set_error (e : jsvalue) (m : ConversationMessage) : ConversationMessage :=
  {| author := author m; text := text m; isLoading := isLoading m;
     error := e; snippets := snippets m |}.

Definition set_snippets (l : list DisplaySnippet) (m : ConversationMessage)
  : ConversationMessage :=
  {| author := author m; text := text m; isLoading := isLoading m;
     error := error m; snippets := Some l |}.

(** [{...last, isLoading: b}], where [last] may be [undefined]. *)
Definition spread_isLoading (last : option ConversationMessage) (b : bool)
  : ConversationMessage :=
  match last with
  | Some m =>
      {| author := author m; text := text m; isLoading := b;
         error := error m; snippets := snippets m |}
  | None =>
      {| author := None; text := None; isLoading := b;
         error := None; snippets := None |}
  end.

(** ** The handlers *)

(** [s.replace(pat, '')]: the first occurrence of [pat] is dropped. *)
Definition replace_first (pat s : string) : string :=
  match String.index 0 pat s with
  | Some n =>
      String.substring 0 n s
      +:+ String.substring (n + String.length pat)
            (String.length s - (n + String.length pat)) s
  | None => s
  end.

(** How a handler ends: normally; with an exception that leaves the handler
    (the updates queued before it stay); or with an exception thrown by a
    state updater while React renders, which the error boundary around the
    page catches by taking the page down. *)
Inductive outcome : Type :=
| Completed (st : State)
| Uncaught (e : exn) (st : State)
| RenderFailed (e : exn).

Definition sentinel : string := "[DONE]".

Definition server_failure : string := "Sorry, something went wrong".

Definition placeholder : ConversationMessage :=
  {| author := Some server; text := None; isLoading := true;
     error := None; snippets := None |}.

Definition user_turn (message : string) : ConversationMessage :=
  {| author := Some user; text := Some message; isLoading := false;
     error := None; snippets := None |}.

Definition failure_turn : ConversationMessage :=
  {| author := Some server; text := None; isLoading := false;
     error := Some (JStr server_failure); snippets := None |}.

(** [prev.slice(0, -1)] and [prev.slice(-1)[0]] *)
Definition slice_init {A : Type} (prev : list A) : list A :=
  take (length prev - 1) prev.

Definition slice_last {A : Type} (prev : list A) : option A :=
  list.last prev.

(** [setConversation(updater)]: the updater gets the previous array and the
    identity of the one object it creates. *)
Definition put_conversation (c : list Obj) (st : State) : State :=
  {| query := query st; pageIsLoading := pageIsLoading st;
     conversation := c; searchId := searchId st;
     currentlyViewedSnippets := currentlyViewedSnippets st;
     prevEventSource := prevEventSource st; sources := sources st;
     next_oid := S (next_oid st);
     seenServerResponse := seenServerResponse st;
     trace := trace st |}.

Definition setConversation (updater : list Obj -> nat -> res (list Obj))
    (st : State) : res State :=
  let* c := updater (conversation st) (next_oid st) in
  Val (put_conversation c st).

(** [(prev) => [...prev, m]] *)
Definition append_turn (m : ConversationMessage) (st : State) : State :=
  put_conversation (conversation st ++ [(next_oid st, m)]) st.

(** [(prev) => [...prev.slice(0, -1), lastMessage]] with [lastMessage]
    computed from [prev.slice(-1)[0]] *)
Definition replace_last
    (lastMessage : option ConversationMessage -> res ConversationMessage)
    (prev : list Obj) (oid : nat) : res (list Obj) :=
  let* m := lastMessage (snd <$> slice_last prev) in
  Val (slice_init prev ++ [(oid, m)]).

Definition mark_closed (e : EventSource) : EventSource :=
  {| es_url := es_url e; es_closed := true; es_i := es_i e |}.

Definition bump_i (e : EventSource) : EventSource :=
  {| es_url := es_url e; es_closed := es_closed e; es_i := S (es_i e) |}.

(** [es.close()] *)
Definition close_source (es : nat) (st : State) : State :=
  {| query := query st; pageIsLoading := pageIsLoading st;
     conversation := conversation st; searchId := searchId st;
     currentlyViewedSnippets := currentlyViewedSnippets st;
     prevEventSource := prevEventSource st;
     sources := alter mark_closed es (sources st);
     next_oid := next_oid st;
     seenServerResponse := seenServerResponse st;
     trace := trace st ++ [Closed es] |}.

(** The user agent fails the connection of [es]: the source is closed without
    any call of the component. *)
Definition fail_connection (es : nat) (st : State) : State :=
  {| query := query st; pageIsLoading := pageIsLoading st;
     conversation := conversation st; searchId := searchId st;
     currentlyViewedSnippets := currentlyViewedSnippets st;
     prevEventSource := prevEventSource st;
     sources := alter mark_closed es (sources st);
     next_oid := next_oid st;
     seenServerResponse := seenServerResponse st;
     trace := trace st |}.

(** [i++] in the closure of source [es] *)
Definition incr_i (es : nat) (st : State) : State :=
  {| query := query st; pageIsLoading := pageIsLoading st;
     conversation := conversation st; searchId := searchId st;
     currentlyViewedSnippets := currentlyViewedSnippets st;
     prevEventSource := prevEventSource st;
     sources := alter bump_i es (sources st);
     next_oid := next_oid st;
     seenServerResponse := seenServerResponse st;
     trace := trace st |}.

(** [new EventSource(url)]: the new source is the next entry of the store. *)
Definition open_source (url : string) (st : State) : nat * State :=
  let es := length (sources st) in
  (es,
   {| query := query st; pageIsLoading := pageIsLoading st;
      conversation := conversation st; searchId := searchId st;
      currentlyViewedSnippets := currentlyViewedSnippets st;
      prevEventSource := prevEventSource st;
      sources := sources st ++ [{| es_url := url; es_closed := false;
                                   es_i := 0 |}];
      next_oid := next_oid st;
      seenServerResponse := seenServerResponse st;
      trace := trace st ++ [Opened es url] |}).

(** The snippet mapping of the header branch, for one item. *)
Definition map_snippet (item : json) : res DisplaySnippet :=
  let* relative_path := getProp item "relative_path" in
  let* text_ := getProp item "text" in
  let* repo_name := getProp item "repo_name" in
  let* lang_ := getProp item "lang" in
  let* start_line := getProp item "start_line" in
  Val {| path := relative_path; code := text_; repoName := repo_name;
         lang := lang_; line := start_line |}.

Fixpoint map_snippets (items : list json) : res (list DisplaySnippet) :=
  match items with
  | [] => Val []
  | item :: rest =>
      let* d := map_snippet item in
      let* ds := map_snippets rest in
      Val (d :: ds)
  end.

(** [newData?.snippets?.map(...) || []] *)
Definition header_snippets (newData : json) : res (list DisplaySnippet) :=
  let* s := getPropOpt (Some newData) "snippets" in
  match s with
  | None | Some JNull => Val []
  | Some (JArr items) => map_snippets items
  | Some _ => Throws TypeError
  end.

Definition lift_render (r : res State) (k : State -> outcome) : outcome :=
  match r with
  | Val st => k st
  | Throws e => RenderFailed e
  end.

Section ResultsPage.

(** [JSON.parse] of the runtime: [None] when it throws a [SyntaxError]. *)
Variable JSON_parse : string -> option json.

(** [apiUrl] and [deviceId] of the device context. *)
Variables apiUrl deviceId : string.

Definition answer_url (question : string) : string :=
  replace_first "https:" apiUrl
  +:+ "/answer?q=" +:+ question +:+ "&user_id=" +:+ deviceId.

Definition makeSearch (question : string) (st : State) : State :=
  let st1 := set_pageIsLoading true st in
  let st2 :=
    match prevEventSource st1 with
    | Some p => close_source p st1
    | None => st1
    end in
  let '(eventSource, st3) := open_source (answer_url question) st2 in
  let st4 := set_prevEventSource (Some eventSource) st3 in
  append_turn placeholder st4.

(** [eventSource.onmessage] of the source [es], whose closure holds [i]. *)
Definition onmessage (es i : nat) (data : string) (st : State) : outcome :=
  if decide (data = sentinel) then
    let st1 := close_source es st in
    lift_render
      (setConversation
         (replace_last (fun last => Val (spread_isLoading last false))) st1)
      (fun st2 => Completed (set_prevEventSource None st2))
  else
    match JSON_parse data with
    | None => Uncaught SyntaxError st
    | Some newData =>
        if decide (i = 0) then
          match getProp newData "Err" with
          | Throws e => Uncaught e st
          | Val Err =>
              if truthy Err then
                let st1 := set_pageIsLoading false st in
                lift_render
                  (setConversation
                     (replace_last
                        (fun last =>
                           Val (set_error Err (spread_isLoading last false))))
                     st1)
                  (fun st2 => Completed (incr_i es st2))
              else
                let st1 := set_pageIsLoading false st in
                match getPropOpt (Some newData) "query_id" with
                | Throws e => Uncaught e st1
                | Val query_id =>
                    let st2 := set_searchId query_id st1 in
                    lift_render
                      (setConversation
                         (replace_last
                            (fun last =>
                               let* mapped := header_snippets newData in
                               Val (set_snippets mapped
                                      (spread_isLoading last true))))
                         st2)
                      (fun st3 => Completed (incr_i es st3))
                end
          end
        else
          lift_render
            (setConversation
               (replace_last
                  (fun last =>
                     match last with
                     | None => Throws TypeError
                     | Some m =>
                         let* Ok := getProp newData "Ok" in
                         Val (set_text
                                (default "" (text m) +:+ ToStringValue Ok) m)
                     end))
               st)
            (fun st1 => Completed (incr_i es st1))
    end.

(** [eventSource.onerror] *)
Definition onerror (st : State) : State :=
  append_turn failure_turn (set_pageIsLoading false st).

Definition handleNewMessage (message : string) (st : State) : State :=
  makeSearch message (append_turn (user_turn message) st).

Definition lastServerResponse (conv : list Obj) : option Obj :=
  list.last (filter (fun o => author (snd o) = Some server) conv).

(** The effect on [lastServerResponse]: it runs after a render in which the
    identity of that object differs from the one of the previous run. *)
Definition view_effect (st : State) : State :=
  let current := fst <$> lastServerResponse (conversation st) in
  if decide (current = seenServerResponse st) then st
  else
    set_seenServerResponse current
      (set_currentlyViewedSnippets
         (Z.of_nat (length (conversation st)) - 1)%Z st).

(** The values of [useState] at the first render. *)
Definition first_render (q : string) : State :=
  {| query := q; pageIsLoading := true;
     conversation := [(0, user_turn q)];
     searchId := Some (JStr "");
     currentlyViewedSnippets := 0%Z;
     prevEventSource := None; sources := [];
     next_oid := 1; seenServerResponse := None; trace := [] |}.

(** The effects of the first render, in the order of their declaration:
    [makeSearch(query)], and the view effect with the conversation of that
    render; then the render they cause. *)
Definition mount (q : string) : State :=
  let st0 := first_render q in
  let st1 := makeSearch q st0 in
  let st2 :=
    set_seenServerResponse (fst <$> lastServerResponse (conversation st0))
      (set_currentlyViewedSnippets
         (Z.of_nat (length (conversation st0)) - 1)%Z st1) in
  view_effect st2.

(** What can happen to a mounted page. *)
Inductive Event : Type :=
| QueryProp (q : string)                 (* the page is rendered with a new [query] *)
| NewMessage (message : string)          (* [onNewMessage] *)
| ViewSnippets (k : Z)                   (* [onViewSnippetsClick] *)
| Message (es : nat) (data : string)     (* a message event on source [es] *)
| Error (es : nat) (fatal : bool).       (* an error event on source [es] *)

Definition rendered (o : outcome) : outcome :=
  match o with
  | Completed st => Completed (view_effect st)
  | Uncaught e st => Uncaught e (view_effect st)
  | RenderFailed e => RenderFailed e
  end.

(** One event.  An event source dispatches nothing once it is closed, and a
    fatal error closes the source on the user agent's side before the error
    event is fired (nothing is recorded in [trace], which lists the calls of
    the component). *)
Definition step (st : State) (ev : Event) : outcome :=
  match ev with
  | QueryProp q =>
      if decide (q = query st) then Completed st
      else rendered (Completed (makeSearch q (set_query q st)))
  | NewMessage message =>
      rendered (Completed (handleNewMessage message st))
  | ViewSnippets k =>
      rendered (Completed (set_currentlyViewedSnippets k st))
  | Message es data =>
      match sources st !! es with
      | Some e =>
          if es_closed e then Completed st
          else rendered (onmessage es (es_i e) data st)
      | None => Completed st
      end
  | Error es fatal =>
      match sources st !! es with
      | Some e =>
          if es_closed e then Completed st
          else
            let st1 := if fatal then fail_connection es st else st in
            rendered (Completed (onerror st1))
      | None => Completed st
      end
  end.

(** The state the page is left in, if it is still there. *)
Definition after (o : outcome) : option State :=
  match o with
  | Completed st | Uncaught _ st => Some st
  | RenderFailed _ => None
  end.

Fixpoint run (st : State) (evs : list Event) : option State :=
  match evs with
  | [] => Some st
  | ev :: rest =>
      match after (step st ev) with
      | Some st' => run st' rest
      | None => None
      end
  end.

Inductive reachable : State -> Prop :=
| reachable_mount (q : string) : reachable (mount q)
| reachable_step (st st' : State) (ev : Event) :
    reachable st -> after (step st ev) = Some st' -> reachable st'.

End ResultsPage.

(** ** Sample payloads *)

Definition dquote : string := String (Ascii.ascii_of_nat 34) EmptyString.

Definition quoted (s : string) : string := dquote +:+ s +:+ dquote.

(** The JSON text of a value whose strings need no escaping. *)
Fixpoint wire_text (v : json) : string :=
  match v with
  | JNull => "null"
  | JBool true => "true"
  | JBool false => "false"
  | JNum r => r
  | JStr s => quoted s
  | JArr items =>
      "[" +:+
      (fix elems (l : list json) : string :=
         match l with
         | [] => ""
         | x :: rest =>
             wire_text x +:+
             match rest with [] => "" | _ => "," +:+ elems rest end
         end) items
      +:+ "]"
  | JObj fields =>
      "{" +:+
      (fix members (l : list (string * json)) : string :=
         match l with
         | [] => ""
         | (k, x) :: rest =>
             quoted k +:+ ":" +:+ wire_text x +:+
             match rest with [] => "" | _ => "," +:+ members rest end
         end) fields
      +:+ "}"
  end.

(** A parser that knows the texts of the values of [table] and rejects every
    other payload. *)
Fixpoint table_parse (table : list json) (data : string) : option json :=
  match table with
  | [] => None
  | v :: rest =>
      if decide (wire_text v = data) then Some v else table_parse rest data
  end.

Definition raw_snippet (p c r l : string) (n : string) : json :=
  JObj [("relative_path", JStr p); ("text", JStr c); ("repo_name", JStr r);
        ("lang", JStr l); ("start_line", JNum n)].

Definition s1 : json := raw_snippet "src/main.rs" "fn main() {}" "bloop" "Rust" "1".
Definition s2 : json := raw_snippet "src/lib.rs" "pub mod a;" "bloop" "Rust" "7".

Definition header_q1 : json :=
  JObj [("query_id", JStr "q1"); ("snippets", JArr [s1; s2])].
Definition ok_hello : json := JObj [("Ok", JStr "Hello")].
Definition ok_world : json := JObj [("Ok", JStr " world")].
Definition err_bad_query : json := JObj [("Err", JStr "bad query")].
Definition err_empty : json := JObj [("Err", JStr "")].
Definition empty_record : json := JObj [].

Definition samples : list json :=
  [header_q1; ok_hello; ok_world; err_bad_query; err_empty; empty_record;
   JNull].

Definition sample_parse : string -> option json := table_parse samples.

Definition sample_api : string := "https://localhost:7878/api".
Definition sample_device : string := "device-1".

Definition sample_step : State -> Event -> outcome :=
  step sample_parse sample_api sample_device.
Definition sample_run : State -> list Event -> option State :=
  run sample_parse sample_api sample_device.
Definition sample_mount : string -> State :=
  mount sample_api sample_device.

(** The page mounted with the query "hi", and the states it is in after the
    header of the example, and after one token more. *)
Definition mounted_hi : State := sample_mount "hi".

Definition after_header : State :=
  default mounted_hi
    (sample_run mounted_hi [Message 0 (wire_text header_q1)]).

Definition after_hello : State :=
  default mounted_hi
    (sample_run mounted_hi
       [Message 0 (wire_text header_q1); Message 0 (wire_text ok_hello)]).

(** The number of turns that are shown as loading. *)
Definition loading_turns (st : State) : nat :=
  length (filter (fun m => isLoading m = true) (turns st)).

(** ** Notions used by the statements *)

Definition field (raw : json) (k : string) : jsvalue :=
  match raw with
  | JObj fs => assoc k fs
  | _ => None
  end.

(** The snippet mapper as the specification words it: a pure function of the
    raw snippet that renames [relative_path] to [path], [text] to [code],
    [repo_name] to [repoName], [lang] to [lang] and [start_line] to [line]. *)
Definition SnippetMapper (raw : json) : DisplaySnippet :=
  {| path := field raw "relative_path";
     code := field raw "text";
     repoName := field raw "repo_name";
     lang := field raw "lang";
     line := field raw "start_line" |}.

(** Source [es] is open and has delivered nothing yet, and the last turn is
    the placeholder that [makeSearch] appended for it. *)
Definition awaiting_header (st : State) (es : nat) : Prop :=
  es_closed <$> sources st !! es = Some false
  /\ es_i <$> sources st !! es = Some 0
  /\ list.last (turns st) = Some placeholder.

(** Source [es] is open. *)
Definition is_open (st : State) (es : nat) : Prop :=
  es_closed <$> sources st !! es = Some false.

(** What a completed [onmessage] has done to the state. *)
Definition message_effect (es i : nat) (data : string) (st st' : State)
  : Prop :=
  (exists m,
      conversation st'
      = slice_init (conversation st) ++ [(next_oid st, m)]
      /\ author m = (snd <$> slice_last (conversation st)) ≫= author)
  /\ sources st'
     = alter (if decide (data = sentinel) then mark_closed else bump_i) es
         (sources st)
  /\ prevEventSource st'
     = (if decide (data = sentinel) then None else prevEventSource st)
  /\ (pageIsLoading st' = pageIsLoading st
      \/ (data <> sentinel /\ i = 0 /\ pageIsLoading st' = false))
  /\ next_oid st' = S (next_oid st)
  /\ currentlyViewedSnippets st' = currentlyViewedSnippets st
  /\ seenServerResponse st' = seenServerResponse st
  /\ query st' = query st
  /\ trace st'
     = trace st ++ (if decide (data = sentinel) then [Closed es] else []).

(** Every source that is still open is the one [prevEventSource] holds. *)
Definition single_stream (st : State) : Prop :=
  forall es e,
    sources st !! es = Some e -> es_closed e = false ->
    prevEventSource st = Some es.

Definition starts_with_user (st : State) : Prop :=
  author <$> head (turns st) = Some (Some user).

Definition ends_with_server (st : State) : Prop :=
  author <$> list.last (turns st) = Some (Some server).

(** The view effect has run for the current [lastServerResponse]. *)
Definition view_settled (st : State) : Prop :=
  seenServerResponse st = fst <$> lastServerResponse (conversation st).

(** The two shapes of a conversation update: turns appended at the end, or
    the last element replaced. *)
Definition conversation_update (before after : list Obj) : Prop :=
  (exists new, after = before ++ new)
  \/ (exists x, after = slice_init before ++ [x]).

(** The events that start a session. *)
Definition is_submit (ev : Event) : bool :=
  match ev with
  | QueryProp _ | NewMessage _ => true
  | _ => false
  end.

Definition all_closed (st : State) : Prop :=
  forall es e, sources st !! es = Some e -> es_closed e = true.

(** ** What the page shows *)

(** The body under the page header: the skeleton, the list of snippets, or
    nothing. *)
Inductive Body : Type :=
| Skeleton
| SemanticSearch (snips : list DisplaySnippet)
| Nothing.

(** [conversation[currentlyViewedSnippets]]: [undefined] outside the array. *)
Definition viewed_turn (st : State) : option ConversationMessage :=
  if decide (0 <= currentlyViewedSnippets st)%Z
  then snd <$> conversation st !! Z.to_nat (currentlyViewedSnippets st)
  else None.

(** [conversation[currentlyViewedSnippets]?.snippets?.length || 0], the
    [resultsNumber] of the page header. *)
Definition resultsNumber (st : State) : nat :=
  match viewed_turn st ≫= snippets with
  | Some l => length l
  | None => 0
  end.

Definition page_body (st : State) : Body :=
  if pageIsLoading st then Skeleton
  else
    match viewed_turn st ≫= snippets with
    | Some (d :: ds) => SemanticSearch (d :: ds)
    | _ => Nothing
    end.

(** ** Notions of the further properties *)

(** Message and error events of the streams. *)
Definition is_stream_event (ev : Event) : bool :=
  match ev with
  | Message _ _ | Error _ _ => true
  | _ => false
  end.

(** Every object of the conversation was allocated before [next_oid]. *)
Definition oids_fresh (st : State) : Prop :=
  forall o m, ((o, m) ∈ conversation st) -> o < next_oid st.

Definition opened_ids (tr : list IO) : list nat :=
  omap (fun io => match io with Opened es _ => Some es | Closed _ => None end) tr.

Definition closed_ids (tr : list IO) : list nat :=
  omap (fun io => match io with Closed es => Some es | Opened _ _ => None end) tr.

(** A history of calls, the newest first: a stream is opened under the next
    free number, and [close] is called only on a stream that was opened
    earlier and on which it was not called before. *)
Fixpoint history_ok (h : list IO) : Prop :=
  match h with
  | [] => True
  | Opened es _ :: older => es = length (opened_ids older) /\ history_ok older
  | Closed es :: older =>
      (es ∈ opened_ids older) /\ (es ∉ closed_ids older) /\ history_ok older
  end.

(** What the handlers keep true of the calls they have made. *)
Definition trace_invariant (st : State) : Prop :=
  history_ok (reverse (trace st))
  /\ opened_ids (trace st) = seq 0 (length (sources st))
  /\ (forall es, (es ∈ closed_ids (trace st)) ->
        prevEventSource st <> Some es
        /\ es_closed <$> sources st !! es = Some true)
  /\ (forall p, prevEventSource st = Some p -> p < length (sources st)).

(** The last turn after one more token text: [m] with the text it had, or
    the empty text, followed by [t]. *)
Definition add_text (m : ConversationMessage) (t : string)
  : ConversationMessage :=
  set_text (default EmptyString (text m) +:+ t) m.

Definition concat_strings (l : list string) : string :=
  foldr String.append EmptyString l.

(** ** The command bar context provider *)

Module CommandBar.

(** An object: its identity and its content. *)
Definition ref (A : Type) : Type := (nat * A)%type.

(** [Object.is] on objects, and on values that are an object or [null]. *)
Definition same_object {A : Type} (a b : ref A) : bool :=
  bool_decide (a.1 = b.1).

Definition same_nullable {A : Type} (a b : option (ref A)) : bool :=
  match a, b with
  | None, None => true
  | Some x, Some y => same_object x y
  | _, _ => false
  end.

Definition same_bool (a b : bool) : bool := bool_decide (a = b).

(** [useMemo(() => value, [dep])], where the value holds [dep] and nothing
    else: the object of the previous render is kept when the dependency is
    the same, a new one is made otherwise. *)
Definition useMemo {A : Type} (same : A -> A -> bool) (prev : ref A) (dep : A)
    (next : nat) : ref A * nat :=
  if same prev.2 dep then (prev, next) else ((next, dep), S next).

Section Provider.

(** The types of [types/general] that the provider stores, and the first
    step [{ id: CommandBarStepEnum.INITIAL }]. *)
Variables (FocusedItem ActiveStep : Type).
Variable INITIAL_step : ActiveStep.

Record Provider : Type := {
  focusedItem : option (ref FocusedItem);
  isVisible : bool;
  chosenStep : ref ActiveStep;
  (* the four context values, as the last render left them *)
  handlersContextValue : nat;
  generalContextValue : ref bool;
  currentStepContextValue : ref (ref ActiveStep);
  footerValuesContextValue : ref (option (ref FocusedItem));
  next_object : nat;
}.

(** A render after the first: the memos in the order of the source. *)
Definition render (focused : option (ref FocusedItem)) (visible : bool)
    (chosen : ref ActiveStep) (st : Provider) : Provider :=
  let '(currentStep, n1) :=
    useMemo same_object (currentStepContextValue st) chosen (next_object st) in
  let '(footerValues, n2) :=
    useMemo same_nullable (footerValuesContextValue st) focused n1 in
  let '(general, n3) :=
    useMemo same_bool (generalContextValue st) visible n2 in
  {| focusedItem := focused; isVisible := visible; chosenStep := chosen;
     handlersContextValue := handlersContextValue st;
     generalContextValue := general;
     currentStepContextValue := currentStep;
     footerValuesContextValue := footerValues;
     next_object := n3 |}.

(** The first render; [step_object] is the identity of the first step. *)
Definition first_render (step_object : nat) : Provider :=
  {| focusedItem := None; isVisible := false;
     chosenStep := (step_object, INITIAL_step);
     currentStepContextValue := (0, (step_object, INITIAL_step));
     footerValuesContextValue := (1, None);
     handlersContextValue := 2;
     generalContextValue := (3, false);
     next_object := 4 |}.

(** What a consumer can do through the handlers, and a render caused by the
    parent. *)
Inductive Action : Type :=
| SetFocusedItem (v : option (ref FocusedItem))
| SetIsVisible (b : bool)
| SetChosenStep (v : ref ActiveStep)
| Rerender.

(** A state setter keeps the state it has when it is given the same value. *)
Definition step (st : Provider) (a : Action) : Provider :=
  match a with
  | SetFocusedItem v =>
      render (if same_nullable (focusedItem st) v then focusedItem st else v)
        (isVisible st) (chosenStep st) st
  | SetIsVisible b => render (focusedItem st) b (chosenStep st) st
  | SetChosenStep v =>
      render (focusedItem st) (isVisible st)
        (if same_object (chosenStep st) v then chosenStep st else v) st
  | Rerender => render (focusedItem st) (isVisible st) (chosenStep st) st
  end.

Definition run (st : Provider) (actions : list Action) : Provider :=
  foldl step st actions.

(** Every context value holds the state of the last render, and was made
    before [next_object]. *)
Definition up_to_date (st : Provider) : Prop :=
  (generalContextValue st).2 = isVisible st
  /\ (currentStepContextValue st).2 = chosenStep st
  /\ (footerValuesContextValue st).2 = focusedItem st
  /\ (generalContextValue st).1 < next_object st
  /\ (currentStepContextValue st).1 < next_object st
  /\ (footerValuesContextValue st).1 < next_object st.

End Provider.

Arguments focusedItem {FocusedItem ActiveStep} p.
Arguments isVisible {FocusedItem ActiveStep} p.
Arguments chosenStep {FocusedItem ActiveStep} p.
Arguments handlersContextValue {FocusedItem ActiveStep} p.
Arguments generalContextValue {FocusedItem ActiveStep} p.
Arguments currentStepContextValue {FocusedItem ActiveStep} p.
Arguments footerValuesContextValue {FocusedItem ActiveStep} p.
Arguments next_object {FocusedItem ActiveStep} p.
Arguments render {FocusedItem ActiveStep} focused visible chosen st.
Arguments first_render FocusedItem {ActiveStep} INITIAL_step step_object.
Arguments SetFocusedItem {FocusedItem ActiveStep} v.
Arguments SetIsVisible {FocusedItem ActiveStep} b.
Arguments SetChosenStep {FocusedItem ActiveStep} v.
Arguments Rerender {FocusedItem ActiveStep}.
Arguments step {FocusedItem ActiveStep} st a.
Arguments run {FocusedItem ActiveStep} st actions.
Arguments up_to_date {FocusedItem ActiveStep} st.

End CommandBar.

(** ** The file modal of the results page *)

Module FileModal.

(** Calls on the collaborators of the page. *)
Inductive Call : Type :=
| FileSearch (query : string)            (* [fileModalSearchQuery(query, 0, false, REGEX)] *)
| NavigateRepo (repo : string)           (* [navigateRepoPath(repo)] *)
| NavigateSearch (search : string)       (* [navigateBrowser({ search })] *)
| GetHoverables (relative_path repo_ref : string).

Section Modal.

(** What the page takes from elsewhere: the values of the fields of a full
    result, the items of a file search response with the two fields read
    here, the mappers of [mappers/results], the modes, and the text that
    [URLSearchParams] gives for a value. *)
Variables (V FileItem Ranges Mode : Type).
Variables (item_relative_path item_repo_ref : FileItem -> string).
Variable mapFileResult : FileItem -> gmap string V.
Variable mapRanges : Ranges -> V.
Variable urlencode : string -> string.

Record Modal : Type := {
  mode : Mode;
  scrollToLine : option string;
  openResult : option (gmap string V);
  calls : list Call;
}.

Inductive Event : Type :=
| ResultClick (repo : string) (path : option string)
    (lineNumber : option (list string))
| FileData (data : list FileItem)        (* [fileResultData] is a new response *)
| HoverablesResolved (ranges : Ranges)   (* the promise of [getHoverables] *)
| ModeChange (m : Mode)
| ResultClosed.

Definition called (c : Call) (st : Modal) : Modal :=
  {| mode := mode st; scrollToLine := scrollToLine st;
     openResult := openResult st; calls := calls st ++ [c] |}.

Definition setScrollToLine (v : option string) (st : Modal) : Modal :=
  {| mode := mode st; scrollToLine := v; openResult := openResult st;
     calls := calls st |}.

Definition setOpenResult (v : option (gmap string V)) (st : Modal) : Modal :=
  {| mode := mode st; scrollToLine := scrollToLine st; openResult := v;
     calls := calls st |}.

Definition setMode (m : Mode) (st : Modal) : Modal :=
  {| mode := m; scrollToLine := scrollToLine st; openResult := openResult st;
     calls := calls st |}.

(** [lineNumber ? lineNumber.join('_') : undefined]; the numbers are given
    by their texts. *)
Definition scroll_target (lineNumber : option (list string)) : option string :=
  String.concat "_" <$> lineNumber.

Definition onResultClick (repo : string) (path : option string)
    (lineNumber : option (list string)) (st : Modal) : Modal :=
  let st1 := setScrollToLine (scroll_target lineNumber) st in
  match path with
  | Some (String c p) =>
      called (FileSearch ("open:true repo:" +:+ repo +:+ " path:"
                          +:+ String c p)) st1
  | _ => called (NavigateRepo repo) st1
  end.

(** The [search] handed to the browser. *)
Definition scroll_search (scroll : option string) : string :=
  match scroll with
  | Some (String c s) => "?" +:+ "scroll_line_index=" +:+ urlencode (String c s)
  | _ => EmptyString
  end.

(** The effect on a [fileResultData] that is not null; [None] when it
    throws, as it does on a response without items, where
    [fileResultData.data[0]] is [undefined] and [.data] is read from it. *)
Definition onFileData (data : list FileItem) (st : Modal) : option Modal :=
  match data with
  | [] => None
  | item :: _ =>
      let st1 := setOpenResult (Some (mapFileResult item)) st in
      let st2 := called (NavigateSearch (scroll_search (scrollToLine st1))) st1 in
      Some (called (GetHoverables (item_relative_path item)
                      (item_repo_ref item)) st2)
  end.

(** [setOpenResult((prevState) => ({ ...prevState!, hoverableRanges }))] *)
Definition onHoverables (ranges : Ranges) (st : Modal) : Modal :=
  setOpenResult
    (Some (<["hoverableRanges" := mapRanges ranges]>
             (default ∅ (openResult st)))) st.

Definition handleModeChange (m : Mode) (st : Modal) : Modal := setMode m st.

Definition onResultClosed (st : Modal) : Modal := setOpenResult None st.

Definition step (st : Modal) (ev : Event) : option Modal :=
  match ev with
  | ResultClick repo path lineNumber =>
      Some (onResultClick repo path lineNumber st)
  | FileData data => onFileData data st
  | HoverablesResolved ranges => Some (onHoverables ranges st)
  | ModeChange m => Some (handleModeChange m st)
  | ResultClosed => Some (onResultClosed st)
  end.

Fixpoint run (st : Modal) (evs : list Event) : option Modal :=
  match evs with
  | [] => Some st
  | ev :: rest =>
      match step st ev with
      | Some st' => run st' rest
      | None => None
      end
  end.

End Modal.

Arguments mode {V Mode} m.
Arguments scrollToLine {V Mode} m.
Arguments openResult {V Mode} m.
Arguments calls {V Mode} m.
Arguments ResultClick {FileItem Ranges Mode} repo path lineNumber.
Arguments FileData {FileItem Ranges Mode} data.
Arguments HoverablesResolved {FileItem Ranges Mode} ranges.
Arguments ModeChange {FileItem Ranges Mode} m.
Arguments ResultClosed {FileItem Ranges Mode}.
Arguments onHoverables {V Ranges Mode} mapRanges ranges st.
Arguments onResultClosed {V Mode} st.

End FileModal.

(** A turn is a user turn as [handleNewMessage] and the first render make
    them, or a server turn. *)
Definition well_authored (m : ConversationMessage) : Prop :=
  (exists t, m = user_turn t) \/ author m = Some server.

(** ** Basic facts *)

Lemma slice_init_snoc {A : Type} (c : list A) (x : A) :
  slice_init (c ++ [x]) = c.
Proof.
  unfold slice_init. rewrite length_app. simpl.
  replace (length c + 1 - 1) with (length c) by lia.
  by rewrite take_app_length.
Qed.

Lemma slice_last_snoc {A : Type} (c : list A) (x : A) :
  slice_last (c ++ [x]) = Some x.
Proof. apply last_snoc. Qed.

Lemma table_parse_sentinel : sample_parse sentinel = None.
Proof. reflexivity. Qed.

Create Rewrite HintDb view.

Section Properties.

Variable JSON_parse : string -> option json.
Variables apiUrl deviceId : string.

Local Abbreviation step := (step JSON_parse apiUrl deviceId).
Local Abbreviation run := (run JSON_parse apiUrl deviceId).
Local Abbreviation makeSearch := (makeSearch apiUrl deviceId).
Local Abbreviation handleNewMessage := (handleNewMessage apiUrl deviceId).
Local Abbreviation onmessage := (onmessage JSON_parse).
Local Abbreviation reachable := (reachable JSON_parse apiUrl deviceId).

(** The view effect touches the viewed index and its own dependency only. *)
Lemma view_effect_conversation st :
  conversation (view_effect st) = conversation st.
Proof. unfold view_effect. by case_decide. Qed.

Lemma view_effect_sources st : sources (view_effect st) = sources st.
Proof. unfold view_effect. by case_decide. Qed.

Lemma view_effect_prevEventSource st :
  prevEventSource (view_effect st) = prevEventSource st.
Proof. unfold view_effect. by case_decide. Qed.

Lemma view_effect_pageIsLoading st :
  pageIsLoading (view_effect st) = pageIsLoading st.
Proof. unfold view_effect. by case_decide. Qed.

Lemma view_effect_searchId st : searchId (view_effect st) = searchId st.
Proof. unfold view_effect. by case_decide. Qed.

Lemma view_effect_trace st : trace (view_effect st) = trace st.
Proof. unfold view_effect. by case_decide. Qed.

Lemma view_effect_next_oid st : next_oid (view_effect st) = next_oid st.
Proof. unfold view_effect. by case_decide. Qed.

Lemma view_effect_query st : query (view_effect st) = query st.
Proof. unfold view_effect. by case_decide. Qed.

Lemma view_effect_turns st : turns (view_effect st) = turns st.
Proof. unfold turns. by rewrite view_effect_conversation. Qed.

Lemma view_effect_seen st :
  seenServerResponse (view_effect st)
  = fst <$> lastServerResponse (conversation st).
Proof. unfold view_effect. case_decide; simpl; congruence. Qed.

(** *** What [makeSearch] leaves behind *)

Lemma makeSearch_conversation q st :
  conversation (makeSearch q st)
  = conversation st ++ [(next_oid st, placeholder)].
Proof. unfold makeSearch. simpl. by destruct (prevEventSource st). Qed.

Lemma makeSearch_sources q st :
  sources (makeSearch q st)
  = match prevEventSource st with
    | Some p => alter mark_closed p (sources st)
    | None => sources st
    end ++ [{| es_url := answer_url apiUrl deviceId q; es_closed := false;
               es_i := 0 |}].
Proof. unfold makeSearch. simpl. by destruct (prevEventSource st). Qed.

Lemma makeSearch_prevEventSource q st :
  prevEventSource (makeSearch q st) = Some (length (sources st)).
Proof.
  unfold makeSearch. simpl. destruct (prevEventSource st); simpl; [|done].
  by rewrite length_alter.
Qed.

Lemma makeSearch_pageIsLoading q st : pageIsLoading (makeSearch q st) = true.
Proof. unfold makeSearch. simpl. by destruct (prevEventSource st). Qed.

Lemma makeSearch_trace q st :
  trace (makeSearch q st)
  = trace st
    ++ match prevEventSource st with Some p => [Closed p] | None => [] end
    ++ [Opened (length (sources st)) (answer_url apiUrl deviceId q)].
Proof.
  unfold makeSearch. simpl. destruct (prevEventSource st); simpl.
  - by rewrite length_alter, <- app_assoc.
  - done.
Qed.

(** *** The branches of [onmessage] *)

Lemma onmessage_done es i st :
  onmessage es i sentinel st
  = Completed
      (set_prevEventSource None
         (put_conversation
            (slice_init (conversation st)
             ++ [(next_oid st,
                  spread_isLoading (snd <$> slice_last (conversation st))
                    false)])
            (close_source es st))).
Proof. unfold onmessage. by rewrite decide_True. Qed.

Lemma onmessage_syntax es i data st :
  data <> sentinel -> JSON_parse data = None ->
  onmessage es i data st = Uncaught SyntaxError st.
Proof. intros Hd Hp. unfold onmessage. by rewrite decide_False, Hp. Qed.

Lemma onmessage_err es data newData Err st :
  data <> sentinel -> JSON_parse data = Some newData ->
  getProp newData "Err" = Val Err -> truthy Err = true ->
  onmessage es 0 data st
  = Completed
      (incr_i es
         (put_conversation
            (slice_init (conversation st)
             ++ [(next_oid st,
                  set_error Err
                    (spread_isLoading (snd <$> slice_last (conversation st))
                       false))])
            (set_pageIsLoading false st))).
Proof.
  intros Hd Hp He Ht. unfold onmessage.
  by rewrite decide_False, Hp, decide_True, He, Ht.
Qed.

Lemma getPropOpt_Some newData k v :
  getProp newData "Err" = Val v ->
  getPropOpt (Some newData) k = getProp newData k.
Proof. by destruct newData. Qed.

Lemma onmessage_header es data newData Err query_id mapped st :
  data <> sentinel -> JSON_parse data = Some newData ->
  getProp newData "Err" = Val Err -> truthy Err = false ->
  getProp newData "query_id" = Val query_id ->
  header_snippets newData = Val mapped ->
  onmessage es 0 data st
  = Completed
      (incr_i es
         (put_conversation
            (slice_init (conversation st)
             ++ [(next_oid st,
                  set_snippets mapped
                    (spread_isLoading (snd <$> slice_last (conversation st))
                       true))])
            (set_searchId query_id (set_pageIsLoading false st)))).
Proof.
  intros Hd Hp He Ht Hq Hm. unfold onmessage.
  rewrite decide_False, Hp, decide_True, He, Ht by done.
  rewrite (getPropOpt_Some _ _ _ He), Hq.
  unfold setConversation, replace_last. simpl. by rewrite Hm.
Qed.

Lemma onmessage_token es i data newData Ok o m st :
  data <> sentinel -> JSON_parse data = Some newData -> i <> 0 ->
  slice_last (conversation st) = Some (o, m) ->
  getProp newData "Ok" = Val Ok ->
  onmessage es i data st
  = Completed
      (incr_i es
         (put_conversation
            (slice_init (conversation st)
             ++ [(next_oid st,
                  set_text (default "" (text m) +:+ ToStringValue Ok) m)])
            st)).
Proof.
  intros Hd Hp Hi Hl Ho. unfold onmessage.
  rewrite decide_False, Hp, decide_False by done.
  unfold setConversation, replace_last. rewrite Hl. simpl. by rewrite Ho.
Qed.

Lemma step_message_open st es e data :
  sources st !! es = Some e -> es_closed e = false ->
  step st (Message es data) = rendered (onmessage es (es_i e) data st).
Proof. intros Hs Hc. simpl. by rewrite Hs, Hc. Qed.

Lemma step_message_closed st es e data :
  sources st !! es = Some e -> es_closed e = true ->
  step st (Message es data) = Completed st.
Proof. intros Hs Hc. simpl. by rewrite Hs, Hc. Qed.

Lemma step_error_closed st es e fatal :
  sources st !! es = Some e -> es_closed e = true ->
  step st (Error es fatal) = Completed st.
Proof. intros Hs Hc. simpl. by rewrite Hs, Hc. Qed.

Hint Rewrite view_effect_conversation view_effect_sources
  view_effect_prevEventSource view_effect_pageIsLoading view_effect_searchId
  view_effect_trace view_effect_next_oid view_effect_query view_effect_turns
  : view.

(** *** Every way [onmessage] can end *)

Lemma author_spread last b :
  author (spread_isLoading last b) = last ≫= author.
Proof. by destruct last. Qed.

Lemma onmessage_completed es i data st st' :
  onmessage es i data st = Completed st' -> message_effect es i data st st'.
Proof.
  unfold onmessage, message_effect, lift_render, setConversation, replace_last.
  case_decide as Hd.
  - intros [= <-]. simpl. repeat split; eauto.
    eexists. split; [done|]. apply author_spread.
  - destruct (JSON_parse data) as [newData|]; [|done].
    case_decide as Hi.
    + destruct (getProp newData "Err") as [Err|] eqn:He; [|done].
      destruct (truthy Err).
      * intros [= <-]. simpl. rewrite app_nil_r. repeat split; eauto.
        eexists. split; [done|]. apply author_spread.
      * rewrite (getPropOpt_Some _ _ _ He).
        destruct (getProp newData "query_id"); [|done]. simpl.
        destruct (header_snippets newData); [|done]. simpl.
        intros [= <-]. simpl. rewrite app_nil_r. repeat split; eauto.
        eexists. split; [done|]. apply author_spread.
    + destruct (slice_last (conversation st)) as [[o m]|]; [|done]. simpl.
      destruct (getProp newData "Ok"); [|done]. simpl.
      intros [= <-]. simpl. rewrite app_nil_r. repeat split; eauto.
Qed.

Lemma onmessage_uncaught es i data e st st' :
  onmessage es i data st = Uncaught e st' -> data <> sentinel /\ st' = st.
Proof.
  unfold onmessage, lift_render, setConversation, replace_last.
  case_decide as Hd; [done|].
  destruct (JSON_parse data) as [newData|]; [|by intros [= _ <-]].
  case_decide as Hi.
  - destruct (getProp newData "Err") as [Err|] eqn:He; [|by intros [= _ <-]].
    destruct (truthy Err); [done|].
    rewrite (getPropOpt_Some _ _ _ He).
    destruct (getProp newData "query_id") eqn:Hq.
    + simpl. by destruct (header_snippets newData).
    + by destruct newData.
  - destruct (slice_last (conversation st)) as [[o m]|]; [|done]. simpl.
    by destruct (getProp newData "Ok").
Qed.

(** *** Every way a step can end *)

Lemma step_after_cases st ev st' :
  after (step st ev) = Some st' ->
  st' = st
  \/ exists st'',
      st' = view_effect st''
      /\ match ev with
         | QueryProp q => st'' = makeSearch q (set_query q st)
         | NewMessage message => st'' = handleNewMessage message st
         | ViewSnippets k => st'' = set_currentlyViewedSnippets k st
         | Message es data =>
             exists e,
               sources st !! es = Some e /\ es_closed e = false
               /\ (message_effect es (es_i e) data st st'' \/ st'' = st)
         | Error es fatal =>
             exists e,
               sources st !! es = Some e /\ es_closed e = false
               /\ st'' = onerror (if fatal then fail_connection es st else st)
         end.
Proof.
  destruct ev as [q|message|k|es data|es fatal]; simpl.
  - case_decide; simpl; intros [= <-]; eauto.
  - intros [= <-]; eauto.
  - intros [= <-]; eauto.
  - destruct (sources st !! es) as [e|] eqn:Hs; [|intros [= <-]; eauto].
    destruct (es_closed e) eqn:Hc; [intros [= <-]; eauto|].
    destruct (onmessage es (es_i e) data st) as [st1|x st1|x] eqn:Ho;
      simpl; [| |done]; intros [= <-]; right; exists st1; split; try done;
      exists e; repeat split; try done.
    + left. by apply onmessage_completed.
    + right. by apply onmessage_uncaught in Ho as [_ ->].
  - destruct (sources st !! es) as [e|] eqn:Hs; [|intros [= <-]; eauto].
    destruct (es_closed e) eqn:Hc; [intros [= <-]; eauto|].
    simpl. intros [= <-]. right. eexists. split; [done|]. by exists e.
Qed.

(** *** One message event on an open source, field by field *)

Lemma lookup_bump (l : list EventSource) es e :
  l !! es = Some e -> alter bump_i es l !! es = Some (bump_i e).
Proof. intros H. by rewrite list_lookup_alter_eq, H. Qed.

Lemma lookup_mark_closed (l : list EventSource) es e :
  l !! es = Some e -> alter mark_closed es l !! es = Some (mark_closed e).
Proof. intros H. by rewrite list_lookup_alter_eq, H. Qed.

Lemma step_done st es e c o m :
  sources st !! es = Some e -> es_closed e = false ->
  conversation st = c ++ [(o, m)] ->
  exists st',
    step st (Message es sentinel) = Completed st'
    /\ conversation st' = c ++ [(next_oid st, spread_isLoading (Some m) false)]
    /\ sources st' = alter mark_closed es (sources st)
    /\ prevEventSource st' = None
    /\ pageIsLoading st' = pageIsLoading st
    /\ searchId st' = searchId st
    /\ trace st' = trace st ++ [Closed es].
Proof.
  intros Hs Hc Hconv. eexists. split.
  - rewrite (step_message_open _ _ _ _ Hs Hc), onmessage_done. reflexivity.
  - autorewrite with view. simpl.
    by rewrite Hconv, slice_init_snoc, slice_last_snoc.
Qed.

Lemma step_err st es e data newData Err c o m :
  sources st !! es = Some e -> es_closed e = false -> es_i e = 0 ->
  data <> sentinel -> JSON_parse data = Some newData ->
  getProp newData "Err" = Val Err -> truthy Err = true ->
  conversation st = c ++ [(o, m)] ->
  exists st',
    step st (Message es data) = Completed st'
    /\ conversation st'
       = c ++ [(next_oid st, set_error Err (spread_isLoading (Some m) false))]
    /\ sources st' = alter bump_i es (sources st)
    /\ prevEventSource st' = prevEventSource st
    /\ pageIsLoading st' = false
    /\ searchId st' = searchId st
    /\ trace st' = trace st.
Proof.
  intros Hs Hc Hi Hd Hp He Ht Hconv. eexists. split.
  - rewrite (step_message_open _ _ _ _ Hs Hc), Hi.
    rewrite (onmessage_err _ _ _ _ _ Hd Hp He Ht). reflexivity.
  - autorewrite with view. simpl.
    by rewrite Hconv, slice_init_snoc, slice_last_snoc.
Qed.

Lemma step_header st es e data newData Err query_id mapped c o m :
  sources st !! es = Some e -> es_closed e = false -> es_i e = 0 ->
  data <> sentinel -> JSON_parse data = Some newData ->
  getProp newData "Err" = Val Err -> truthy Err = false ->
  getProp newData "query_id" = Val query_id ->
  header_snippets newData = Val mapped ->
  conversation st = c ++ [(o, m)] ->
  exists st',
    step st (Message es data) = Completed st'
    /\ conversation st'
       = c ++ [(next_oid st,
                set_snippets mapped (spread_isLoading (Some m) true))]
    /\ sources st' = alter bump_i es (sources st)
    /\ prevEventSource st' = prevEventSource st
    /\ pageIsLoading st' = false
    /\ searchId st' = query_id
    /\ trace st' = trace st.
Proof.
  intros Hs Hc Hi Hd Hp He Ht Hq Hm Hconv. eexists. split.
  - rewrite (step_message_open _ _ _ _ Hs Hc), Hi.
    rewrite (onmessage_header _ _ _ _ _ _ _ Hd Hp He Ht Hq Hm). reflexivity.
  - autorewrite with view. simpl.
    by rewrite Hconv, slice_init_snoc, slice_last_snoc.
Qed.

Lemma step_token st es e data newData Ok c o m :
  sources st !! es = Some e -> es_closed e = false -> es_i e <> 0 ->
  data <> sentinel -> JSON_parse data = Some newData ->
  getProp newData "Ok" = Val Ok ->
  conversation st = c ++ [(o, m)] ->
  exists st',
    step st (Message es data) = Completed st'
    /\ conversation st'
       = c ++ [(next_oid st,
                set_text (default "" (text m) +:+ ToStringValue Ok) m)]
    /\ sources st' = alter bump_i es (sources st)
    /\ prevEventSource st' = prevEventSource st
    /\ pageIsLoading st' = pageIsLoading st
    /\ searchId st' = searchId st
    /\ trace st' = trace st.
Proof.
  intros Hs Hc Hi Hd Hp Ho Hconv. eexists. split.
  - rewrite (step_message_open _ _ _ _ Hs Hc).
    rewrite (onmessage_token es (es_i e) data newData Ok o m st Hd Hp Hi);
      [reflexivity| |done].
    by rewrite Hconv, slice_last_snoc.
  - autorewrite with view. simpl. by rewrite Hconv, slice_init_snoc.
Qed.

(** *** The inline snippet mapping is the snippet mapper *)

Lemma map_snippet_mapper raw :
  raw <> JNull -> map_snippet raw = Val (SnippetMapper raw).
Proof. intros H. by destruct raw. Qed.

Lemma map_snippets_mapper raws :
  Forall (fun raw => raw <> JNull) raws ->
  map_snippets raws = Val (SnippetMapper <$> raws).
Proof.
  induction 1 as [|raw raws Hraw _ IH]; [done|].
  simpl. by rewrite (map_snippet_mapper _ Hraw), IH.
Qed.

Lemma header_snippets_array fs raws :
  assoc "snippets" fs = Some (JArr raws) ->
  header_snippets (JObj fs) = map_snippets raws.
Proof. intros H. unfold header_snippets. simpl. by rewrite H. Qed.

Lemma header_snippets_absent fs :
  assoc "snippets" fs = None -> header_snippets (JObj fs) = Val [].
Proof. intros H. unfold header_snippets. simpl. by rewrite H. Qed.

Lemma last_turns_snoc st m :
  list.last (turns st) = Some m ->
  exists c o, conversation st = c ++ [(o, m)].
Proof.
  unfold turns. intros H. apply last_Some in H as [ms Hms].
  destruct (conversation st) as [|x l] eqn:E using rev_ind.
  - by destruct ms.
  - clear IHl. rewrite fmap_app in Hms. simpl in Hms.
    apply app_inj_tail in Hms as [_ Hm]. destruct x as [o' m']. simpl in Hm.
    subst m'. by exists l, o'.
Qed.

Lemma lookup_fmap_Some {A B : Type} (f : A -> B) (l : list A) i b :
  f <$> l !! i = Some b -> exists a, l !! i = Some a /\ f a = b.
Proof. destruct (l !! i) as [a|]; [|done]. intros [= <-]. by exists a. Qed.

(** The sentinel is not JSON. *)
Hypothesis JSON_parse_sentinel : JSON_parse sentinel = None.

Lemma parsed_not_sentinel data v : JSON_parse data = Some v -> data <> sentinel.
Proof using JSON_parse_sentinel. intros H ->. congruence. Qed.

Lemma run_cons_completed st st1 ev evs :
  step st ev = Completed st1 -> run st (ev :: evs) = run st1 evs.
Proof. intros H. simpl. by rewrite H. Qed.

Lemma awaiting_header_inv st es :
  awaiting_header st es ->
  exists e c o,
    sources st !! es = Some e /\ es_closed e = false /\ es_i e = 0
    /\ conversation st = c ++ [(o, placeholder)].
Proof.
  intros (Hc & Hi & Hl).
  apply lookup_fmap_Some in Hc as (e & He & Hc).
  rewrite He in Hi. injection Hi as Hi.
  apply last_turns_snoc in Hl as (c & o & Hl).
  by exists e, c, o.
Qed.

(** ** Invariants of the mounted page *)

Lemma single_stream_ext st st' :
  sources st' = sources st -> prevEventSource st' = prevEventSource st ->
  single_stream st -> single_stream st'.
Proof. unfold single_stream. intros -> ->. done. Qed.

Lemma single_stream_more_closed st st' es :
  sources st' = alter mark_closed es (sources st) ->
  prevEventSource st' = prevEventSource st ->
  single_stream st -> single_stream st'.
Proof.
  unfold single_stream. intros -> -> H es' e' Hl Hc.
  destruct (decide (es = es')) as [<-|Hne].
  - rewrite list_lookup_alter_eq in Hl.
    destruct (sources st !! es); simplify_eq/=.
  - rewrite list_lookup_alter_ne in Hl by done. eauto.
Qed.

Lemma single_stream_all_closed st st' es :
  sources st' = alter mark_closed es (sources st) ->
  single_stream st -> is_open st es ->
  forall es' e', sources st' !! es' = Some e' -> es_closed e' = true.
Proof.
  unfold single_stream, is_open. intros -> H Ho es' e' Hl.
  apply lookup_fmap_Some in Ho as (e & He & Hc).
  destruct (decide (es = es')) as [<-|Hne].
  - rewrite list_lookup_alter_eq, He in Hl. by simplify_eq/=.
  - rewrite list_lookup_alter_ne in Hl by done.
    destruct (es_closed e') eqn:Hc'; [done|].
    pose proof (H _ _ Hl Hc') as H1. pose proof (H _ _ He Hc) as H2. congruence.
Qed.

Lemma single_stream_makeSearch q st :
  single_stream st -> single_stream (makeSearch q st).
Proof.
  intros H es e Hl Hc.
  rewrite makeSearch_prevEventSource. rewrite makeSearch_sources in Hl.
  f_equal.
  assert (Hlen : length (match prevEventSource st with
                         | Some p => alter mark_closed p (sources st)
                         | None => sources st
                         end) = length (sources st)).
  { destruct (prevEventSource st); [apply length_alter|done]. }
  destruct (decide (es < length (sources st))) as [Hlt|Hge].
  - exfalso. rewrite lookup_app_l in Hl by lia.
    destruct (prevEventSource st) as [p|] eqn:Hp.
    + destruct (decide (p = es)) as [->|Hne].
      * rewrite list_lookup_alter_eq in Hl.
        destruct (sources st !! es); simplify_eq/=.
      * rewrite list_lookup_alter_ne in Hl by done.
        pose proof (H _ _ Hl Hc). congruence.
    + pose proof (H _ _ Hl Hc). congruence.
  - apply lookup_lt_Some in Hl. rewrite length_app, Hlen in Hl. simpl in Hl. lia.
Qed.

Lemma makeSearch_closes_all q st :
  single_stream st ->
  forall es e,
    es < length (sources st) ->
    sources (makeSearch q st) !! es = Some e -> es_closed e = true.
Proof.
  intros H es e Hlt Hl. destruct (es_closed e) eqn:Hc; [done|].
  pose proof (single_stream_makeSearch q st H es e Hl Hc) as Hp.
  rewrite makeSearch_prevEventSource in Hp. injection Hp. lia.
Qed.

Lemma single_stream_message es i data st st' :
  message_effect es i data st st' -> is_open st es ->
  single_stream st -> single_stream st'.
Proof.
  intros (_ & Hs & Hp & _) Ho H. case_decide.
  - intros es' e' Hl Hc.
    by rewrite (single_stream_all_closed st st' es Hs H Ho es' e' Hl) in Hc.
  - intros es' e' Hl Hc. rewrite Hp. rewrite Hs in Hl.
    destruct (decide (es = es')) as [<-|Hne].
    + rewrite list_lookup_alter_eq in Hl.
      destruct (sources st !! es) as [e|] eqn:He; simplify_eq/=. eauto.
    + rewrite list_lookup_alter_ne in Hl by done. eauto.
Qed.

Lemma single_stream_view st : single_stream st -> single_stream (view_effect st).
Proof.
  apply single_stream_ext;
    [apply view_effect_sources|apply view_effect_prevEventSource].
Qed.

Lemma is_open_lookup st es e :
  sources st !! es = Some e -> es_closed e = false -> is_open st es.
Proof. unfold is_open. intros -> <-. done. Qed.

Lemma single_stream_step st ev st' :
  after (step st ev) = Some st' -> single_stream st -> single_stream st'.
Proof.
  intros Hstep H.
  apply step_after_cases in Hstep as [->|(st'' & -> & Hev)]; [done|].
  apply single_stream_view.
  destruct ev as [q|message|k|es data|es fatal].
  - subst st''. by apply single_stream_makeSearch.
  - subst st''. by apply single_stream_makeSearch.
  - by subst st''.
  - destruct Hev as (e & Hs & Hc & [Hm| ->]); [|done].
    eapply single_stream_message; eauto using is_open_lookup.
  - destruct Hev as (e & Hs & Hc & ->).
    destruct fatal; [|done].
    by eapply (single_stream_more_closed st _ es).
Qed.

Lemma single_stream_mount q : single_stream (mount apiUrl deviceId q).
Proof.
  unfold mount. apply single_stream_view.
  eapply single_stream_ext;
    [| |apply (single_stream_makeSearch q (first_render q))]; done.
Qed.

Lemma reachable_single_stream st : reachable st -> single_stream st.
Proof.
  induction 1 as [q|st st' ev _ IH Hstep].
  - apply single_stream_mount.
  - by eapply single_stream_step.
Qed.

Lemma slice_init_cons_cons {A : Type} (x y : A) (l : list A) :
  slice_init (x :: y :: l) = x :: slice_init (y :: l).
Proof. unfold slice_init. simpl. by rewrite Nat.sub_0_r. Qed.

Lemma last_turns st :
  list.last (turns st) = snd <$> slice_last (conversation st).
Proof. unfold turns, slice_last. apply fmap_last. Qed.

Lemma turns_makeSearch q st :
  turns (makeSearch q st) = turns st ++ [placeholder].
Proof. unfold turns. by rewrite makeSearch_conversation, fmap_app. Qed.

Lemma turns_handleNewMessage message st :
  turns (handleNewMessage message st)
  = turns st ++ [user_turn message; placeholder].
Proof.
  unfold handleNewMessage. rewrite turns_makeSearch. unfold turns. simpl.
  by rewrite fmap_app, <- app_assoc.
Qed.

Lemma step_conversation st ev st' :
  after (step st ev) = Some st' ->
  conversation_update (conversation st) (conversation st').
Proof.
  intros Hstep.
  apply step_after_cases in Hstep as [->|(st'' & -> & Hev)].
  { left. exists []. by rewrite app_nil_r. }
  rewrite view_effect_conversation.
  destruct ev as [q|message|k|es data|es fatal].
  - subst st''. rewrite makeSearch_conversation. left. eauto.
  - subst st''. unfold handleNewMessage. rewrite makeSearch_conversation.
    simpl. rewrite <- app_assoc. left. eauto.
  - subst st''. left. exists []. by rewrite app_nil_r.
  - destruct Hev as (e & _ & _ & [((m & -> & _) & _)| ->]).
    + right. eauto.
    + left. exists []. by rewrite app_nil_r.
  - destruct Hev as (e & _ & _ & ->). left. by destruct fatal; eauto.
Qed.

Lemma ends_with_server_step st ev st' :
  after (step st ev) = Some st' -> ends_with_server st -> ends_with_server st'.
Proof.
  intros Hstep H.
  apply step_after_cases in Hstep as [->|(st'' & -> & Hev)]; [done|].
  unfold ends_with_server in *. rewrite view_effect_turns.
  destruct ev as [q|message|k|es data|es fatal].
  - subst st''. by rewrite turns_makeSearch, last_snoc.
  - subst st''. rewrite turns_handleNewMessage.
    replace (turns st ++ [user_turn message; placeholder])
      with ((turns st ++ [user_turn message]) ++ [placeholder])
      by (by rewrite <- app_assoc).
    by rewrite last_snoc.
  - by subst st''.
  - destruct Hev as (e & _ & _ & [((m & Hc & Ha) & _)| ->]); [|done].
    rewrite last_turns in H. unfold turns. rewrite Hc, fmap_app. simpl.
    rewrite last_snoc. simpl. rewrite Ha.
    destruct (slice_last (conversation st)) as [[o' m']|]; [|done].
    simpl in *. congruence.
  - destruct Hev as (e & _ & _ & ->). unfold turns.
    destruct fatal; simpl; rewrite fmap_app; simpl; by rewrite last_snoc.
Qed.

Lemma head_update (before after : list Obj) x :
  head before = Some x ->
  conversation_update before after ->
  head after = Some x
  \/ (before = [x] /\ exists y, after = [y]).
Proof.
  intros Hh [(new & ->)|(y & ->)].
  - left. by destruct before.
  - destruct before as [|x0 [|x1 l]]; [done| |].
    + right. simplify_eq/=. eauto.
    + left. rewrite slice_init_cons_cons. by simplify_eq/=.
Qed.

Lemma head_turns st : head (turns st) = snd <$> head (conversation st).
Proof. unfold turns. by destruct (conversation st). Qed.

Lemma starts_with_user_step st ev st' :
  after (step st ev) = Some st' -> starts_with_user st -> starts_with_user st'.
Proof.
  intros Hstep H. unfold starts_with_user in *.
  rewrite head_turns in H |- *.
  destruct (head (conversation st)) as [x|] eqn:Hx; [|done].
  destruct (head_update _ _ x Hx (step_conversation _ _ _ Hstep))
    as [->|(Hone & y & Hy)]; [done|].
  rewrite Hy. simpl.
  apply step_after_cases in Hstep as [->|(st'' & -> & Hev)].
  { rewrite Hone in Hy. by simplify_eq. }
  rewrite view_effect_conversation in Hy.
  destruct ev as [q|message|k|es data|es fatal].
  - subst st''. rewrite makeSearch_conversation in Hy. simpl in Hy.
    rewrite Hone in Hy. done.
  - subst st''. unfold handleNewMessage in Hy.
    rewrite makeSearch_conversation in Hy. simpl in Hy. rewrite Hone in Hy.
    done.
  - subst st''. simpl in Hy. rewrite Hone in Hy. by simplify_eq.
  - destruct Hev as (e & _ & _ & [((m & Hc & Ha) & _)| ->]).
    + rewrite Hone in Hc, Ha. rewrite Hc in Hy. simpl in *.
      simplify_eq/=. congruence.
    + rewrite Hone in Hy. by simplify_eq.
  - destruct Hev as (e & _ & _ & ->).
    destruct fatal; simpl in Hy; rewrite Hone in Hy; done.
Qed.

Lemma view_settled_step st ev st' :
  after (step st ev) = Some st' -> view_settled st -> view_settled st'.
Proof.
  intros Hstep H.
  apply step_after_cases in Hstep as [->|(st'' & -> & _)]; [done|].
  unfold view_settled. by rewrite view_effect_seen, view_effect_conversation.
Qed.

Lemma mount_conversation q :
  conversation (mount apiUrl deviceId q)
  = [(0, user_turn q); (1, placeholder)].
Proof. unfold mount. by rewrite view_effect_conversation. Qed.

Lemma reachable_starts_with_user st : reachable st -> starts_with_user st.
Proof.
  induction 1 as [q|st st' ev _ IH Hstep].
  - unfold starts_with_user, turns. by rewrite mount_conversation.
  - by eapply starts_with_user_step.
Qed.

Lemma reachable_ends_with_server st : reachable st -> ends_with_server st.
Proof.
  induction 1 as [q|st st' ev _ IH Hstep].
  - unfold ends_with_server, turns. by rewrite mount_conversation.
  - by eapply ends_with_server_step.
Qed.

Lemma reachable_view_settled st : reachable st -> view_settled st.
Proof.
  induction 1 as [q|st st' ev _ IH Hstep].
  - unfold view_settled, mount.
    by rewrite view_effect_seen, view_effect_conversation.
  - by eapply view_settled_step.
Qed.

Lemma view_effect_settled st : view_settled st -> view_effect st = st.
Proof. unfold view_settled, view_effect. intros ->. by rewrite decide_True. Qed.

(** *** Closed sources stay closed and deliver nothing *)

Lemma closed_stays_closed st ev st' es e :
  after (step st ev) = Some st' ->
  sources st !! es = Some e -> es_closed e = true ->
  exists e', sources st' !! es = Some e' /\ es_closed e' = true.
Proof.
  intros Hstep Hs Hc.
  assert (Halter : forall f es0,
             (forall x, es_closed x = true -> es_closed (f x) = true) ->
             exists e', alter f es0 (sources st) !! es = Some e'
                        /\ es_closed e' = true).
  { intros f es0 Hf. destruct (decide (es0 = es)) as [->|Hne].
    - rewrite list_lookup_alter_eq, Hs. simpl. eauto.
    - rewrite list_lookup_alter_ne by done. eauto. }
  assert (Hsearch : forall q st0,
             sources st0 = sources st ->
             exists e', sources (makeSearch q st0) !! es = Some e'
                        /\ es_closed e' = true).
  { intros q st0 Hst0. rewrite makeSearch_sources, Hst0.
    destruct (prevEventSource st0) as [p|].
    - destruct (Halter mark_closed p) as (e' & He' & Hc'); [done|].
      exists e'. split; [|done]. by apply lookup_app_l_Some.
    - exists e. split; [|done]. by apply lookup_app_l_Some. }
  apply step_after_cases in Hstep as [->|(st'' & -> & Hev)]; [eauto|].
  rewrite view_effect_sources.
  destruct ev as [q|message|k|es0 data|es0 fatal].
  - subst st''. by apply Hsearch.
  - subst st''. by apply Hsearch.
  - subst st''. eauto.
  - destruct Hev as (e0 & _ & _ & [(_ & -> & _)| ->]); [|eauto].
    apply Halter. by case_decide.
  - destruct Hev as (e0 & _ & _ & ->).
    destruct fatal; simpl; [by apply Halter|eauto].
Qed.

Lemma closed_after_run st evs st' es e :
  run st evs = Some st' ->
  sources st !! es = Some e -> es_closed e = true ->
  exists e', sources st' !! es = Some e' /\ es_closed e' = true.
Proof.
  revert st e. induction evs as [|ev evs IH]; intros st e Hrun Hs Hc.
  - simpl in Hrun. injection Hrun as <-. eauto.
  - simpl in Hrun.
    destruct (after (step st ev)) as [st1|] eqn:Hstep; [|done].
    destruct (closed_stays_closed _ _ _ _ _ Hstep Hs Hc) as (e1 & Hs1 & Hc1).
    eauto.
Qed.

Lemma reachable_run st evs st' :
  reachable st -> run st evs = Some st' -> reachable st'.
Proof.
  revert st. induction evs as [|ev evs IH]; intros st Hr Hrun; simpl in Hrun.
  - by injection Hrun as <-.
  - destruct (after (step st ev)) as [st1|] eqn:Hstep; [|done].
    eapply IH; [|done]. by eapply reachable_step.
Qed.

(** *** The view effect *)

Lemma view_effect_currentlyViewedSnippets st :
  currentlyViewedSnippets (view_effect st)
  = if decide (fst <$> lastServerResponse (conversation st)
               = seenServerResponse st)
    then currentlyViewedSnippets st
    else (Z.of_nat (length (conversation st)) - 1)%Z.
Proof. unfold view_effect. by case_decide. Qed.

Lemma makeSearch_seen q st :
  seenServerResponse (makeSearch q st) = seenServerResponse st.
Proof. unfold makeSearch. simpl. by destruct (prevEventSource st). Qed.

Lemma makeSearch_currentlyViewedSnippets q st :
  currentlyViewedSnippets (makeSearch q st) = currentlyViewedSnippets st.
Proof. unfold makeSearch. simpl. by destruct (prevEventSource st). Qed.

Lemma lastServerResponse_last st :
  ends_with_server st ->
  lastServerResponse (conversation st) = list.last (conversation st).
Proof.
  unfold ends_with_server. rewrite last_turns. unfold slice_last.
  destruct (list.last (conversation st)) as [[o m]|] eqn:Hl; [|done].
  simpl. intros [= Ha]. apply last_Some in Hl as [c ->].
  unfold lastServerResponse. rewrite filter_app, filter_cons_True by done.
  by rewrite filter_nil, last_snoc.
Qed.

(** ** The session of the specification's example *)

(** C1: a session that delivers the header [{query_id: "q1", snippets:
    [raw1, raw2]}], then [{Ok: "Hello"}], then [{Ok: " world"}], then the
    sentinel, ends with the last turn [{author: server, isLoading: false,
    snippets: [mapped raw1, mapped raw2], text: "Hello world"}]; the earlier
    turns are the ones there were; on the sentinel the stream is closed and
    the active session reference is cleared. *)
Theorem header_tokens_done st es h t1 t2 raw1 raw2 :
  awaiting_header st es ->
  JSON_parse h
  = Some (JObj [("query_id", JStr "q1"); ("snippets", JArr [raw1; raw2])]) ->
  JSON_parse t1 = Some (JObj [("Ok", JStr "Hello")]) ->
  JSON_parse t2 = Some (JObj [("Ok", JStr " world")]) ->
  raw1 <> JNull -> raw2 <> JNull ->
  exists st',
    run st [Message es h; Message es t1; Message es t2; Message es sentinel]
    = Some st'
    /\ list.last (turns st')
       = Some {| author := Some server; text := Some "Hello world";
                 isLoading := false; error := None;
                 snippets := Some [SnippetMapper raw1; SnippetMapper raw2] |}
    /\ slice_init (conversation st') = slice_init (conversation st)
    /\ es_closed <$> sources st' !! es = Some true
    /\ prevEventSource st' = None
    /\ trace st' = trace st ++ [Closed es].
Proof using JSON_parse_sentinel.
  intros Haw Hh Ht1 Ht2 Hr1 Hr2.
  destruct (awaiting_header_inv _ _ Haw) as (e & c & o & Hs & Hc & Hi & Hconv).
  edestruct (step_header st es e h) as (st1 & E1 & C1 & S1 & P1 & L1 & Q1 & T1);
    [exact Hs | exact Hc | exact Hi | by eapply parsed_not_sentinel | exact Hh
    | reflexivity | reflexivity | reflexivity | | exact Hconv | ].
  { rewrite (header_snippets_array _ [raw1; raw2]) by reflexivity.
    apply map_snippets_mapper. by repeat constructor. }
  assert (Hs1 : sources st1 !! es = Some (bump_i e))
    by (rewrite S1; by apply lookup_bump).
  destruct (step_token st1 es (bump_i e) t1 _ (Some (JStr "Hello")) c _ _
              Hs1 Hc ltac:(simpl; lia) (parsed_not_sentinel _ _ Ht1) Ht1
              eq_refl C1)
    as (st2 & E2 & C2 & S2 & P2 & L2 & Q2 & T2).
  assert (Hs2 : sources st2 !! es = Some (bump_i (bump_i e)))
    by (rewrite S2; by apply lookup_bump).
  destruct (step_token st2 es (bump_i (bump_i e)) t2 _ (Some (JStr " world"))
              c _ _ Hs2 Hc ltac:(simpl; lia) (parsed_not_sentinel _ _ Ht2) Ht2
              eq_refl C2)
    as (st3 & E3 & C3 & S3 & P3 & L3 & Q3 & T3).
  assert (Hs3 : sources st3 !! es = Some (bump_i (bump_i (bump_i e))))
    by (rewrite S3; by apply lookup_bump).
  destruct (step_done st3 es _ c _ _ Hs3 Hc C3)
    as (st4 & E4 & C4 & S4 & P4 & L4 & Q4 & T4).
  exists st4. split.
  { rewrite (run_cons_completed _ _ _ _ E1), (run_cons_completed _ _ _ _ E2),
      (run_cons_completed _ _ _ _ E3), (run_cons_completed _ _ _ _ E4).
    done. }
  split.
  { unfold turns. rewrite C4, fmap_app. simpl. by rewrite last_snoc. }
  split.
  { by rewrite C4, Hconv, !slice_init_snoc. }
  split.
  { rewrite S4, (lookup_mark_closed _ _ _ Hs3). done. }
  split; [done|].
  by rewrite T4, T3, T2, T1.
Qed.

(** ** The header event *)

Lemma is_open_inv st es :
  is_open st es -> exists e, sources st !! es = Some e /\ es_closed e = false.
Proof. intros H. by apply lookup_fmap_Some in H. Qed.

(** C6: when the first event of a session is a record without an [Err]
    field, the page's loading flag becomes false, [query_id] is recorded as
    [searchId], and the last turn is replaced by itself with [isLoading: true]
    and [snippets] set to the mapped snippets, where the inline mapping is the
    snippet mapper (the five field renames) and an absent [snippets] gives the
    empty sequence. *)
Theorem header_without_err st es data fs raws c o m :
  is_open st es -> es_i <$> sources st !! es = Some 0 ->
  JSON_parse data = Some (JObj fs) ->
  assoc "Err" fs = None ->
  (assoc "snippets" fs = Some (JArr raws)
   /\ Forall (fun raw => raw <> JNull) raws)
  \/ (assoc "snippets" fs = None /\ raws = []) ->
  conversation st = c ++ [(o, m)] ->
  exists st',
    step st (Message es data) = Completed st'
    /\ pageIsLoading st' = false
    /\ searchId st' = assoc "query_id" fs
    /\ header_snippets (JObj fs) = Val (SnippetMapper <$> raws)
    /\ turns st'
       = c.*2 ++ [{| author := author m; text := text m; isLoading := true;
                     error := error m;
                     snippets := Some (SnippetMapper <$> raws) |}].
Proof using JSON_parse_sentinel.
  intros Ho Hi Hp He Hsn Hconv.
  destruct (is_open_inv _ _ Ho) as (e & Hs & Hc).
  rewrite Hs in Hi. injection Hi as Hi.
  assert (Hm : header_snippets (JObj fs) = Val (SnippetMapper <$> raws)).
  { destruct Hsn as [[Ha Hall]|[Ha ->]].
    - rewrite (header_snippets_array _ _ Ha). by apply map_snippets_mapper.
    - by rewrite (header_snippets_absent _ Ha). }
  edestruct (step_header st es e data (JObj fs))
    as (st' & E & C & _ & _ & L & Q & _);
    [exact Hs | exact Hc | exact Hi | by eapply parsed_not_sentinel | exact Hp
    | simpl; by rewrite He | reflexivity | reflexivity | exact Hm | exact Hconv
    | ].
  exists st'. repeat split; try done.
  unfold turns. by rewrite C, fmap_app.
Qed.

(** C2, amended: when the first event of a session carries a truthy [Err]
    (any non-empty string is one), the page's loading flag becomes false and
    the last turn is replaced by itself with [isLoading: false] and
    [error: Err].  The handler makes no call on the stream and keeps the
    session reference: the stream stays open with its event counter at one,
    and the next event on it is handled by the same handler. *)
Theorem err_header st es data newData Err c o m :
  is_open st es -> es_i <$> sources st !! es = Some 0 ->
  JSON_parse data = Some newData ->
  getProp newData "Err" = Val Err -> truthy Err = true ->
  conversation st = c ++ [(o, m)] ->
  exists st',
    step st (Message es data) = Completed st'
    /\ pageIsLoading st' = false
    /\ turns st'
       = c.*2 ++ [{| author := author m; text := text m; isLoading := false;
                     error := Err; snippets := snippets m |}]
    /\ is_open st' es
    /\ es_i <$> sources st' !! es = Some 1
    /\ prevEventSource st' = prevEventSource st
    /\ trace st' = trace st
    /\ forall data',
         step st' (Message es data') = rendered (onmessage es 1 data' st').
Proof using JSON_parse_sentinel.
  intros Ho Hi Hp He Ht Hconv.
  destruct (is_open_inv _ _ Ho) as (e & Hs & Hc).
  rewrite Hs in Hi. injection Hi as Hi.
  destruct (step_err st es e data newData Err c o m Hs Hc Hi
              (parsed_not_sentinel _ _ Hp) Hp He Ht Hconv)
    as (st' & E & C & S & P & L & _ & T).
  assert (Hs' : sources st' !! es = Some (bump_i e))
    by (rewrite S; by apply lookup_bump).
  exists st'. repeat split; try done.
  - unfold turns. by rewrite C, fmap_app.
  - unfold is_open. rewrite Hs'. simpl. by rewrite Hc.
  - rewrite Hs'. simpl. by rewrite Hi.
  - intros data'. rewrite (step_message_open _ _ _ _ Hs' Hc). simpl.
    by rewrite Hi.
Qed.

(** ** Failures *)

(** C7, amended: a non-sentinel payload that [JSON.parse] rejects makes the
    handler throw; the [SyntaxError] leaves the handler uncaught, and the
    page is left exactly as it was: no turn is added or changed, the loading
    flag, the event counter of the stream, the stream and the session
    reference are untouched. *)
Theorem unparsable_payload st es data :
  reachable st -> is_open st es ->
  data <> sentinel -> JSON_parse data = None ->
  step st (Message es data) = Uncaught SyntaxError st.
Proof.
  intros Hr Ho Hd Hp. destruct (is_open_inv _ _ Ho) as (e & Hs & Hc).
  rewrite (step_message_open _ _ _ _ Hs Hc), (onmessage_syntax _ _ _ _ Hd Hp).
  simpl. by rewrite (view_effect_settled _ (reachable_view_settled _ Hr)).
Qed.

(** C3, amended: on an error event of an open stream the page's loading flag
    becomes false and a new server turn [{author: server, isLoading: false,
    error: "Sorry, something went wrong"}] is appended: every turn there was,
    the one in flight included, is left as it is.  The handler makes no call
    on the stream and keeps the session reference; unless the user agent
    itself has failed the connection, the stream stays open. *)
Theorem transport_error st es fatal :
  is_open st es ->
  exists st',
    step st (Error es fatal) = Completed st'
    /\ pageIsLoading st' = false
    /\ conversation st' = conversation st ++ [(next_oid st, failure_turn)]
    /\ prevEventSource st' = prevEventSource st
    /\ trace st' = trace st
    /\ (fatal = false -> sources st' = sources st /\ is_open st' es).
Proof.
  intros Ho. destruct (is_open_inv _ _ Ho) as (e & Hs & Hc).
  eexists. split.
  { simpl. rewrite Hs, Hc. reflexivity. }
  unfold is_open. autorewrite with view.
  destruct fatal; simpl; repeat split; done.
Qed.

(** ** Submitting a message *)

Lemma handleNewMessage_sources message st :
  sources (handleNewMessage message st)
  = match prevEventSource st with
    | Some p => alter mark_closed p (sources st)
    | None => sources st
    end ++ [{| es_url := answer_url apiUrl deviceId message;
               es_closed := false; es_i := 0 |}].
Proof. unfold handleNewMessage. by rewrite makeSearch_sources. Qed.

Lemma single_stream_handleNewMessage message st :
  single_stream st -> single_stream (handleNewMessage message st).
Proof. intros H. by apply single_stream_makeSearch. Qed.

Lemma new_source_lookup message st :
  sources (handleNewMessage message st) !! length (sources st)
  = Some {| es_url := answer_url apiUrl deviceId message;
            es_closed := false; es_i := 0 |}.
Proof.
  rewrite handleNewMessage_sources. apply list_lookup_middle.
  destruct (prevEventSource st); [by rewrite length_alter|done].
Qed.

(** C4, amended: for every submitted message (the empty one included), the
    conversation after the submit is the previous conversation, then the user
    turn [{author: user, text: message, isLoading: false}], then the server
    placeholder [{author: server, isLoading: true}].  At most one stream is
    open at a time: the one just opened, which awaits its header and feeds
    that last placeholder.  (Placeholders of superseded sessions stay in the
    conversation as they were.) *)
Theorem submit_appends st message :
  reachable st ->
  exists st',
    step st (NewMessage message) = Completed st'
    /\ conversation st'
       = conversation st
         ++ [(next_oid st, user_turn message);
             (S (next_oid st), placeholder)]
    /\ turns st' = turns st ++ [user_turn message; placeholder]
    /\ awaiting_header st' (length (sources st))
    /\ forall es, is_open st' es -> es = length (sources st).
Proof.
  intros Hr. exists (view_effect (handleNewMessage message st)).
  split; [done|]. unfold awaiting_header, is_open.
  autorewrite with view. rewrite new_source_lookup, turns_handleNewMessage.
  repeat split.
  - unfold handleNewMessage. rewrite makeSearch_conversation. simpl.
    by rewrite <- app_assoc.
  - replace (turns st ++ [user_turn message; placeholder])
      with ((turns st ++ [user_turn message]) ++ [placeholder])
      by (by rewrite <- app_assoc).
    by rewrite last_snoc.
  - intros es Ho. apply lookup_fmap_Some in Ho as (e & He & Hc).
    pose proof (single_stream_handleNewMessage message st
                  (reachable_single_stream _ Hr) es e He Hc) as Hp.
    unfold handleNewMessage in Hp. rewrite makeSearch_prevEventSource in Hp.
    by injection Hp.
Qed.

(** C5: when a message is submitted, the connection of the session that was
    active is closed before the new one is opened, every stream that existed
    before the submit is closed afterwards, and whatever happens later, an
    event of such a stream changes nothing. *)
Theorem submit_supersedes st message :
  reachable st ->
  exists st',
    step st (NewMessage message) = Completed st'
    /\ trace st'
       = trace st
         ++ match prevEventSource st with Some p => [Closed p] | None => [] end
         ++ [Opened (length (sources st))
               (answer_url apiUrl deviceId message)]
    /\ (forall es, is_open st es -> prevEventSource st = Some es)
    /\ (forall es, es < length (sources st) ->
          es_closed <$> sources st' !! es = Some true)
    /\ forall evs st'',
         run st' evs = Some st'' ->
         forall es, es < length (sources st) ->
           (forall data, step st'' (Message es data) = Completed st'')
           /\ (forall fatal, step st'' (Error es fatal) = Completed st'').
Proof.
  intros Hr. pose proof (reachable_single_stream _ Hr) as Hsingle.
  exists (view_effect (handleNewMessage message st)).
  split; [done|]. autorewrite with view.
  assert (Hclosed : forall es, es < length (sources st) ->
            exists e, sources (handleNewMessage message st) !! es = Some e
                      /\ es_closed e = true).
  { intros es Hlt.
    destruct (lookup_lt_is_Some_2 (sources (handleNewMessage message st)) es)
      as [e He].
    { rewrite handleNewMessage_sources, length_app.
      destruct (prevEventSource st); [rewrite length_alter|]; simpl; lia. }
    exists e. split; [done|].
    by apply (makeSearch_closes_all message
                (append_turn (user_turn message) st) Hsingle es e Hlt). }
  split; [unfold handleNewMessage; by rewrite makeSearch_trace|].
  split.
  { intros es Ho. destruct (is_open_inv _ _ Ho) as (e & He & Hc). eauto. }
  split.
  { intros es Hlt. destruct (Hclosed es Hlt) as (e & -> & Hc).
    simpl. by rewrite Hc. }
  intros evs st'' Hrun es Hlt.
  destruct (Hclosed es Hlt) as (e & He & Hc).
  rewrite <- view_effect_sources in He.
  destruct (closed_after_run _ _ _ _ _ Hrun He Hc) as (e' & He' & Hc').
  split.
  - intros data. by apply (step_message_closed st'' es e' data).
  - intros fatal. by apply (step_error_closed st'' es e' fatal).
Qed.

(** ** The shape of the conversation *)

Lemma conversation_update_prefix (before after : list Obj) :
  conversation_update before after ->
  (forall i x, i < length before - 1 ->
               before !! i = Some x -> after !! i = Some x)
  /\ length before <= length after.
Proof.
  intros [(new & ->)|(y & ->)].
  - split.
    + intros i x _ Hx. by apply lookup_app_l_Some.
    + rewrite length_app. lia.
  - unfold slice_init. split.
    + intros i x Hi Hx. apply lookup_app_l_Some.
      by rewrite lookup_take_lt.
    + rewrite length_app, length_take. simpl. lia.
Qed.

(** C8: every step of the page either appends turns at the end of the
    conversation or replaces its last element: every element but the last
    stays where and what it was, nothing is removed, and the conversation
    starts with a user turn, at the first render and ever after. *)
Theorem conversation_append_or_replace_last st ev st' :
  reachable st -> after (step st ev) = Some st' ->
  conversation_update (conversation st) (conversation st')
  /\ (forall i x, i < length (conversation st) - 1 ->
                  conversation st !! i = Some x ->
                  conversation st' !! i = Some x)
  /\ length (conversation st) <= length (conversation st')
  /\ starts_with_user (first_render (query st))
  /\ starts_with_user st
  /\ starts_with_user st'.
Proof.
  intros Hr Hstep. pose proof (step_conversation _ _ _ Hstep) as Hu.
  destruct (conversation_update_prefix _ _ Hu) as [Hpre Hlen].
  repeat split; try done.
  - by apply reachable_starts_with_user.
  - apply reachable_starts_with_user. by eapply reachable_step.
Qed.

(** ** The viewed snippets *)

Lemma step_view_frame st ev st' :
  view_settled st -> after (step st ev) = Some st' ->
  exists st'',
    st' = view_effect st''
    /\ seenServerResponse st'' = seenServerResponse st
    /\ currentlyViewedSnippets st''
       = match ev with
         | ViewSnippets k => k
         | _ => currentlyViewedSnippets st
         end.
Proof.
  intros Hset Hstep.
  assert (Hnoop : match ev with ViewSnippets _ => False | _ => True end ->
            exists st'',
              st = view_effect st''
              /\ seenServerResponse st'' = seenServerResponse st
              /\ currentlyViewedSnippets st''
                 = match ev with
                   | ViewSnippets k => k
                   | _ => currentlyViewedSnippets st
                   end).
  { intros Hne. exists st. rewrite (view_effect_settled _ Hset).
    by destruct ev. }
  destruct ev as [q|message|k|es data|es fatal].
  - apply step_after_cases in Hstep as [->|(st'' & -> & ->)];
      [by apply Hnoop|].
    eexists. split; [done|].
    by rewrite makeSearch_seen, makeSearch_currentlyViewedSnippets.
  - apply step_after_cases in Hstep as [->|(st'' & -> & ->)];
      [by apply Hnoop|].
    eexists. split; [done|]. unfold handleNewMessage.
    by rewrite makeSearch_seen, makeSearch_currentlyViewedSnippets.
  - simpl in Hstep. injection Hstep as <-. eexists. by split.
  - apply step_after_cases in Hstep as [->|(st'' & -> & Hev)];
      [by apply Hnoop|].
    destruct Hev as (e & _ & _ & [Hm| ->]).
    + destruct Hm as (_ & _ & _ & _ & _ & Hv & Hseen & _). eauto.
    + eauto.
  - apply step_after_cases in Hstep as [->|(st'' & -> & Hev)];
      [by apply Hnoop|].
    destruct Hev as (e & _ & _ & ->). eexists. split; [done|].
    by destruct fatal.
Qed.


(** ** The page's loading flag *)

Lemma quiet_step st ev :
  all_closed st -> is_submit ev = false ->
  exists st',
    step st ev = Completed st'
    /\ all_closed st' /\ pageIsLoading st' = pageIsLoading st.
Proof.
  intros Hall Hev. destruct ev as [q|message|k|es data|es fatal]; try done.
  - eexists. split; [done|]. unfold all_closed. by autorewrite with view.
  - exists st. simpl. destruct (sources st !! es) as [e|] eqn:He; [|done].
    by rewrite (Hall _ _ He).
  - exists st. simpl. destruct (sources st !! es) as [e|] eqn:He; [|done].
    by rewrite (Hall _ _ He).
Qed.

Lemma quiet_run st evs :
  all_closed st -> Forall (fun ev => is_submit ev = false) evs ->
  exists st', run st evs = Some st' /\ pageIsLoading st' = pageIsLoading st.
Proof.
  intros Hall Hevs. revert st Hall.
  induction Hevs as [|ev evs Hev _ IH]; intros st Hall; [by exists st|].
  destruct (quiet_step st ev Hall Hev) as (st1 & E & Hall1 & L1).
  destruct (IH st1 Hall1) as (st' & Hrun & L).
  exists st'. split; [|congruence]. simpl. by rewrite E.
Qed.

Lemma loading_cleared_by st ev st' :
  after (step st ev) = Some st' ->
  pageIsLoading st = true -> pageIsLoading st' = false ->
  (exists es data e,
      ev = Message es data /\ data <> sentinel
      /\ sources st !! es = Some e /\ es_closed e = false /\ es_i e = 0)
  \/ (exists es fatal, ev = Error es fatal /\ is_open st es).
Proof.
  intros Hstep Ht Hf.
  apply step_after_cases in Hstep as [->|(st'' & -> & Hev)]; [congruence|].
  rewrite view_effect_pageIsLoading in Hf.
  destruct ev as [q|message|k|es data|es fatal].
  - subst st''. by rewrite makeSearch_pageIsLoading in Hf.
  - subst st''. unfold handleNewMessage in Hf.
    by rewrite makeSearch_pageIsLoading in Hf.
  - subst st''. simpl in Hf. congruence.
  - destruct Hev as (e & Hs & Hc & [Hm| ->]); [|congruence].
    destruct Hm as (_ & _ & _ & [Hl|(Hd & Hi & _)] & _); [congruence|].
    left. by exists es, data, e.
  - destruct Hev as (e & Hs & Hc & _). right. exists es, fatal.
    split; [done|]. by eapply is_open_lookup.
Qed.

(** C10: when the first event of a session is the sentinel, the stream is
    closed, the placeholder gets [isLoading: false] and the session reference
    is cleared, but the page's loading flag stays true, and it is still true
    after any further events that do not start a new session.  A step takes
    the flag from true to false only if it is a non-sentinel event on a
    stream that has delivered nothing before, or an error event of an open
    stream. *)
Theorem sentinel_first_keeps_page_loading st es evs :
  reachable st -> awaiting_header st es -> pageIsLoading st = true ->
  Forall (fun ev => is_submit ev = false) evs ->
  (exists st1 st2,
      step st (Message es sentinel) = Completed st1
      /\ pageIsLoading st1 = true
      /\ es_closed <$> sources st1 !! es = Some true
      /\ list.last (turns st1)
         = Some {| author := Some server; text := None; isLoading := false;
                   error := None; snippets := None |}
      /\ prevEventSource st1 = None
      /\ run st1 evs = Some st2
      /\ pageIsLoading st2 = true)
  /\ forall s ev s',
       after (step s ev) = Some s' ->
       pageIsLoading s = true -> pageIsLoading s' = false ->
       (exists es' data e,
           ev = Message es' data /\ data <> sentinel
           /\ sources s !! es' = Some e /\ es_closed e = false
           /\ es_i e = 0)
       \/ (exists es' fatal, ev = Error es' fatal /\ is_open s es').
Proof.
  intros Hr Haw Hl Hevs. split; [|apply loading_cleared_by].
  destruct (awaiting_header_inv _ _ Haw) as (e & c & o & Hs & Hc & Hi & Hconv).
  destruct (step_done st es e c o placeholder Hs Hc Hconv)
    as (st1 & E & C & S & P & L & _ & _).
  assert (Hall : all_closed st1).
  { intros es' e'. apply (single_stream_all_closed st st1 es S).
    - by apply reachable_single_stream.
    - by eapply is_open_lookup. }
  destruct (quiet_run st1 evs Hall Hevs) as (st2 & Hrun & L2).
  exists st1, st2. repeat split; try done; try congruence.
  - by rewrite S, (lookup_mark_closed _ _ _ Hs).
  - unfold turns. rewrite C, fmap_app. simpl. by rewrite last_snoc.
Qed.

End Properties.

(** ** The properties at work on the sample session *)

Lemma header_tokens_done_witness :
  awaiting_header mounted_hi 0
  /\ exists st',
      sample_run mounted_hi
        [Message 0 (wire_text header_q1); Message 0 (wire_text ok_hello);
         Message 0 (wire_text ok_world); Message 0 sentinel] = Some st'
      /\ list.last (turns st')
         = Some {| author := Some server; text := Some "Hello world";
                   isLoading := false; error := None;
                   snippets := Some [SnippetMapper s1; SnippetMapper s2] |}
      /\ slice_init (conversation st') = slice_init (conversation mounted_hi)
      /\ es_closed <$> sources st' !! 0 = Some true
      /\ prevEventSource st' = None
      /\ trace st' = trace mounted_hi ++ [Closed 0].
Proof.
  assert (Haw : awaiting_header mounted_hi 0) by (repeat split).
  split; [exact Haw|].
  apply (header_tokens_done sample_parse sample_api sample_device
           table_parse_sentinel mounted_hi 0 _ _ _ s1 s2 Haw);
    try reflexivity; discriminate.
Defined.

Lemma header_without_err_witness :
  is_open mounted_hi 0
  /\ exists st',
      sample_step mounted_hi (Message 0 (wire_text header_q1)) = Completed st'
      /\ pageIsLoading st' = false
      /\ searchId st' = Some (JStr "q1")
      /\ header_snippets header_q1 = Val (SnippetMapper <$> [s1; s2])
      /\ turns st'
         = [user_turn "hi";
            {| author := Some server; text := None; isLoading := true;
               error := None;
               snippets := Some (SnippetMapper <$> [s1; s2]) |}].
Proof.
  assert (Ho : is_open mounted_hi 0) by reflexivity.
  split; [exact Ho|].
  apply (header_without_err sample_parse sample_api sample_device
           table_parse_sentinel mounted_hi 0 (wire_text header_q1)
           [("query_id", JStr "q1"); ("snippets", JArr [s1; s2])] [s1; s2]
           [(0, user_turn "hi")] 1 placeholder Ho);
    try reflexivity.
  left. split; [reflexivity|]. repeat constructor; discriminate.
Defined.

Lemma err_header_witness :
  is_open mounted_hi 0
  /\ truthy (Some (JStr "bad query")) = true
  /\ exists st',
      sample_step mounted_hi (Message 0 (wire_text err_bad_query))
      = Completed st'
      /\ pageIsLoading st' = false
      /\ turns st'
         = [user_turn "hi";
            {| author := Some server; text := None; isLoading := false;
               error := Some (JStr "bad query"); snippets := None |}]
      /\ is_open st' 0
      /\ es_i <$> sources st' !! 0 = Some 1
      /\ prevEventSource st' = Some 0
      /\ trace st' = trace mounted_hi
      /\ forall data',
           sample_step st' (Message 0 data')
           = rendered (onmessage sample_parse 0 1 data' st').
Proof.
  assert (Ho : is_open mounted_hi 0) by reflexivity.
  split; [exact Ho|]. split; [reflexivity|].
  apply (err_header sample_parse sample_api sample_device
           table_parse_sentinel mounted_hi 0 (wire_text err_bad_query)
           err_bad_query (Some (JStr "bad query"))
           [(0, user_turn "hi")] 1 placeholder Ho);
    reflexivity.
Defined.

Lemma unparsable_payload_witness :
  reachable sample_parse sample_api sample_device mounted_hi
  /\ is_open mounted_hi 0
  /\ sample_parse "not json" = None
  /\ sample_step mounted_hi (Message 0 "not json")
     = Uncaught SyntaxError mounted_hi.
Proof.
  assert (Hr : reachable sample_parse sample_api sample_device mounted_hi)
    by apply reachable_mount.
  assert (Ho : is_open mounted_hi 0) by reflexivity.
  split; [exact Hr|]. split; [exact Ho|]. split; [reflexivity|].
  apply (unparsable_payload sample_parse sample_api sample_device mounted_hi
           0 "not json" Hr Ho); [discriminate|reflexivity].
Defined.

Lemma transport_error_witness :
  is_open after_hello 0
  /\ exists st',
      sample_step after_hello (Error 0 false) = Completed st'
      /\ pageIsLoading st' = false
      /\ conversation st'
         = conversation after_hello
           ++ [(next_oid after_hello, failure_turn)]
      /\ prevEventSource st' = prevEventSource after_hello
      /\ trace st' = trace after_hello
      /\ (false = false ->
          sources st' = sources after_hello /\ is_open st' 0).
Proof.
  assert (Ho : is_open after_hello 0) by reflexivity.
  split; [exact Ho|].
  exact (transport_error sample_parse sample_api sample_device after_hello 0
           false Ho).
Defined.

Lemma reachable_mounted_hi :
  reachable sample_parse sample_api sample_device mounted_hi.
Proof. apply reachable_mount. Qed.

Lemma reachable_after_header :
  reachable sample_parse sample_api sample_device after_header.
Proof.
  apply (reachable_run sample_parse sample_api sample_device mounted_hi
           [Message 0 (wire_text header_q1)]);
    [apply reachable_mounted_hi|vm_compute; reflexivity].
Qed.

Lemma reachable_after_hello :
  reachable sample_parse sample_api sample_device after_hello.
Proof.
  apply (reachable_run sample_parse sample_api sample_device mounted_hi
           [Message 0 (wire_text header_q1); Message 0 (wire_text ok_hello)]);
    [apply reachable_mounted_hi|vm_compute; reflexivity].
Qed.

Lemma submit_appends_witness :
  reachable sample_parse sample_api sample_device mounted_hi
  /\ exists st',
      sample_step mounted_hi (NewMessage "") = Completed st'
      /\ conversation st'
         = conversation mounted_hi
           ++ [(next_oid mounted_hi, user_turn "");
               (S (next_oid mounted_hi), placeholder)]
      /\ turns st' = turns mounted_hi ++ [user_turn ""; placeholder]
      /\ awaiting_header st' (length (sources mounted_hi))
      /\ forall es, is_open st' es -> es = length (sources mounted_hi).
Proof.
  split; [apply reachable_mounted_hi|].
  exact (submit_appends sample_parse sample_api sample_device mounted_hi ""
           reachable_mounted_hi).
Defined.

Lemma submit_supersedes_witness :
  reachable sample_parse sample_api sample_device after_hello
  /\ exists st',
      sample_step after_hello (NewMessage "and then?") = Completed st'
      /\ trace st'
         = trace after_hello
           ++ match prevEventSource after_hello with
              | Some p => [Closed p]
              | None => []
              end
           ++ [Opened (length (sources after_hello))
                 (answer_url sample_api sample_device "and then?")]
      /\ (forall es, is_open after_hello es ->
                     prevEventSource after_hello = Some es)
      /\ (forall es, es < length (sources after_hello) ->
            es_closed <$> sources st' !! es = Some true)
      /\ forall evs st'',
           sample_run st' evs = Some st'' ->
           forall es, es < length (sources after_hello) ->
             (forall data, sample_step st'' (Message es data) = Completed st'')
             /\ (forall fatal,
                   sample_step st'' (Error es fatal) = Completed st'').
Proof.
  split; [apply reachable_after_hello|].
  exact (submit_supersedes sample_parse sample_api sample_device after_hello
           "and then?" reachable_after_hello).
Defined.

Lemma conversation_append_or_replace_last_witness :
  reachable sample_parse sample_api sample_device mounted_hi
  /\ after (sample_step mounted_hi (Message 0 (wire_text header_q1)))
     = Some after_header
  /\ conversation_update (conversation mounted_hi) (conversation after_header)
  /\ (forall i x, i < length (conversation mounted_hi) - 1 ->
                  conversation mounted_hi !! i = Some x ->
                  conversation after_header !! i = Some x)
  /\ length (conversation mounted_hi) <= length (conversation after_header)
  /\ starts_with_user (first_render (query mounted_hi))
  /\ starts_with_user mounted_hi
  /\ starts_with_user after_header.
Proof.
  assert (Hstep : after (sample_step mounted_hi
                           (Message 0 (wire_text header_q1)))
                  = Some after_header) by (vm_compute; reflexivity).
  split; [apply reachable_mounted_hi|]. split; [exact Hstep|].
  exact (conversation_append_or_replace_last sample_parse sample_api
           sample_device mounted_hi (Message 0 (wire_text header_q1))
           after_header reachable_mounted_hi Hstep).
Defined.


Lemma sentinel_first_keeps_page_loading_witness :
  reachable sample_parse sample_api sample_device mounted_hi
  /\ awaiting_header mounted_hi 0
  /\ pageIsLoading mounted_hi = true
  /\ exists st1 st2,
      sample_step mounted_hi (Message 0 sentinel) = Completed st1
      /\ pageIsLoading st1 = true
      /\ es_closed <$> sources st1 !! 0 = Some true
      /\ list.last (turns st1)
         = Some {| author := Some server; text := None; isLoading := false;
                   error := None; snippets := None |}
      /\ prevEventSource st1 = None
      /\ sample_run st1
           [ViewSnippets 0; Message 0 (wire_text ok_hello); Error 0 false]
         = Some st2
      /\ pageIsLoading st2 = true.
Proof.
  assert (Haw : awaiting_header mounted_hi 0)
    by (repeat split; vm_compute; reflexivity).
  split; [apply reachable_mounted_hi|]. split; [exact Haw|].
  split; [vm_compute; reflexivity|].
  apply (sentinel_first_keeps_page_loading sample_parse sample_api
           sample_device mounted_hi 0
           [ViewSnippets 0; Message 0 (wire_text ok_hello); Error 0 false]
           reachable_mounted_hi Haw eq_refl).
  repeat constructor.
Defined.

(** ** Where the code departs from the specification *)

(** After the header [{Err: "bad query"}] the stream is still open and still
    the active session, and the next event of the session is applied to the
    turn that holds the error; a header whose [Err] is the empty string is
    handled as a header without error. *)
Lemma err_header_stream_left_open :
  sample_run mounted_hi [Message 0 (wire_text err_bad_query)]
    ≫= (fun st => es_closed <$> sources st !! 0) = Some false
  /\ prevEventSource
       <$> sample_run mounted_hi [Message 0 (wire_text err_bad_query)]
     = Some (Some 0)
  /\ trace <$> sample_run mounted_hi [Message 0 (wire_text err_bad_query)]
     = Some (trace mounted_hi)
  /\ sample_run mounted_hi
       [Message 0 (wire_text err_bad_query); Message 0 (wire_text ok_hello)]
       ≫= (fun st => list.last (turns st))
     = Some {| author := Some server; text := Some "Hello";
               isLoading := false; error := Some (JStr "bad query");
               snippets := None |}
  /\ sample_run mounted_hi [Message 0 (wire_text err_empty)]
       ≫= (fun st => list.last (turns st))
     = Some {| author := Some server; text := None; isLoading := true;
               error := None; snippets := Some [] |}.
Proof. repeat split; vm_compute; reflexivity. Qed.

(** After a transport error that the user agent recovers from, the stream is
    still open and still the active session, no call has been made on it, and
    the next event of the session is applied to the appended failure turn. *)
Lemma transport_error_stream_left_open :
  sample_run after_hello [Error 0 false]
    ≫= (fun st => es_closed <$> sources st !! 0) = Some false
  /\ prevEventSource <$> sample_run after_hello [Error 0 false]
     = Some (Some 0)
  /\ trace <$> sample_run after_hello [Error 0 false]
     = Some (trace after_hello)
  /\ turns <$> sample_run after_hello
                 [Error 0 false; Message 0 (wire_text ok_world)]
     = Some (slice_init (turns after_hello)
             ++ [{| author := Some server; text := Some "Hello";
                    isLoading := true; error := None;
                    snippets := Some [SnippetMapper s1; SnippetMapper s2] |};
                 {| author := Some server; text := Some " world";
                    isLoading := false;
                    error := Some (JStr server_failure);
                    snippets := None |}]).
Proof. repeat split; vm_compute; reflexivity. Qed.

(** A message submitted before the first answer has arrived leaves two
    placeholders loading. *)
Lemma two_placeholders_loading :
  loading_turns <$> after (sample_step mounted_hi (NewMessage "")) = Some 2
  /\ turns <$> after (sample_step mounted_hi (NewMessage ""))
     = Some [user_turn "hi"; placeholder; user_turn ""; placeholder].
Proof. repeat split; vm_compute; reflexivity. Qed.

(** A payload that is not JSON throws out of the handler and the failure
    path is not taken; the payload [null], which is JSON but no record, takes
    the page down when it comes as a token. *)
Lemma unparsable_payload_escapes :
  sample_step mounted_hi (Message 0 "not json")
  = Uncaught SyntaxError mounted_hi
  /\ sample_step mounted_hi (Message 0 "not json")
     <> sample_step mounted_hi (Error 0 false)
  /\ pageIsLoading mounted_hi = true
  /\ sample_step mounted_hi (Message 0 (wire_text JNull))
     = Uncaught TypeError mounted_hi
  /\ sample_step after_header (Message 0 (wire_text JNull))
     = RenderFailed TypeError.
Proof.
  split; [vm_compute; reflexivity|]. split; [vm_compute; discriminate|].
  repeat split; vm_compute; reflexivity.
Qed.

(** A token moves the view back to the last turn after the caller has
    chosen another one: the turn it replaces is a new object. *)
Example token_moves_view_back :
  currentlyViewedSnippets
    <$> sample_run after_header [ViewSnippets 0] = Some 0%Z
  /\ currentlyViewedSnippets
       <$> sample_run after_header
             [ViewSnippets 0; Message 0 (wire_text ok_hello)] = Some 1%Z.
Proof. repeat split; vm_compute; reflexivity. Qed.

(** ** Further properties of the controller *)

Lemma string_app_assoc (a b c : string) : (a +:+ b) +:+ c = a +:+ b +:+ c.
Proof.
  induction a as [|x a IH]; [done|].
  change (String x ((a +:+ b) +:+ c) = String x (a +:+ b +:+ c)).
  by rewrite IH.
Qed.

Lemma string_app_nil_r (a : string) : a +:+ EmptyString = a.
Proof.
  induction a as [|x a IH]; [done|].
  change (String x (a +:+ EmptyString) = String x a). by rewrite IH.
Qed.

Section Coverage.

Variable JSON_parse : string -> option json.
Variables apiUrl deviceId : string.

Local Abbreviation step := (step JSON_parse apiUrl deviceId).
Local Abbreviation run := (run JSON_parse apiUrl deviceId).
Local Abbreviation reachable := (reachable JSON_parse apiUrl deviceId).

(** *** Tokens *)

Lemma add_text_fold m t ts :
  foldl add_text m (t :: ts)
  = set_text (default EmptyString (text m) +:+ concat_strings (t :: ts)) m.
Proof.
  revert m t. induction ts as [|t' ts IH]; intros m t.
  - simpl. by rewrite string_app_nil_r.
  - change (foldl add_text m (t :: t' :: ts))
      with (foldl add_text (add_text m t) (t' :: ts)).
    rewrite IH. unfold add_text, set_text. simpl.
    by rewrite string_app_assoc.
Qed.

Lemma tokens_run st es e c o m (toks : list (string * jsvalue)) :
  sources st !! es = Some e -> es_closed e = false -> es_i e <> 0 ->
  conversation st = c ++ [(o, m)] ->
  Forall (fun tok =>
            tok.1 <> sentinel
            /\ exists newData,
                JSON_parse tok.1 = Some newData
                /\ getProp newData "Ok" = Val tok.2) toks ->
  exists st' o' e',
    run st (Message es <$> toks.*1) = Some st'
    /\ conversation st'
       = c ++ [(o', foldl add_text m (ToStringValue <$> toks.*2))]
    /\ sources st' !! es = Some e'
    /\ es_closed e' = false
    /\ es_i e' = es_i e + length toks
    /\ pageIsLoading st' = pageIsLoading st
    /\ prevEventSource st' = prevEventSource st
    /\ searchId st' = searchId st.
Proof.
  intros Hs Hc Hi Hconv Htoks. revert st e o m Hs Hc Hi Hconv.
  induction Htoks as [|[d ok] toks (Hd & newData & Hp & Hok) _ IH];
    intros st e o m Hs Hc Hi Hconv.
  - exists st, o, e. simpl. repeat split; done.
  - destruct (step_token JSON_parse apiUrl deviceId st es e d newData ok c o m
                Hs Hc Hi Hd Hp Hok Hconv)
      as (st1 & E1 & C1 & S1 & P1 & L1 & Q1 & _).
    assert (Hs1 : sources st1 !! es = Some (bump_i e))
      by (rewrite S1; by apply lookup_bump).
    destruct (IH st1 (bump_i e) (next_oid st) _ Hs1 Hc ltac:(simpl; lia) C1)
      as (st' & o' & e' & Hrun & C' & S' & Hc' & Hi' & L' & P' & Q').
    exists st', o', e'.
    split.
    { change (run st (Message es d :: (Message es <$> toks.*1)) = Some st').
      by rewrite (run_cons_completed _ _ _ _ _ _ _ E1). }
    split; [exact C'|]. split; [done|]. split; [done|].
    split; [rewrite Hi'; simpl; lia|].
    repeat split; congruence.
Qed.


(** *** Exceptions *)

(** X2: an exception that leaves a handler leaves no trace in the state: every
    throw of [onmessage] happens before its first state update.  Only a
    message event on an open stream can end this way, and the events after
    it are handled as if it had not come. *)
Theorem uncaught_changes_nothing st ev e st' evs :
  reachable st -> step st ev = Uncaught e st' ->
  st' = st
  /\ run st (ev :: evs) = run st evs
  /\ exists es data,
      ev = Message es data /\ data <> sentinel /\ is_open st es.
Proof.
  intros Hr Hstep.
  pose proof (reachable_view_settled _ _ _ _ Hr) as Hset.
  assert (Hst : st' = st /\ exists es data,
                   ev = Message es data /\ data <> sentinel /\ is_open st es).
  { destruct ev as [q|message|k|es data|es fatal]; simpl in Hstep.
    - by case_decide.
    - done.
    - done.
    - destruct (sources st !! es) as [e0|] eqn:Hs; [|done].
      destruct (es_closed e0) eqn:Hc; [done|].
      destruct (onmessage JSON_parse es (es_i e0) data st)
        as [st1|x st1|x] eqn:Ho; simpl in Hstep; [done| |done].
      injection Hstep as _ <-.
      apply onmessage_uncaught in Ho as [Hd ->].
      split; [by apply view_effect_settled|].
      exists es, data. repeat split; try done. by eapply is_open_lookup.
    - destruct (sources st !! es) as [e0|]; [|done].
      by destruct (es_closed e0). }
  destruct Hst as [-> Hev]. repeat split; try done.
  simpl. by rewrite Hstep.
Qed.

(** *** Turns that are never touched *)

Lemma user_turn_kept_step st ev st' i x :
  reachable st -> after (step st ev) = Some st' ->
  conversation st !! i = Some x -> author x.2 = Some user ->
  conversation st' !! i = Some x.
Proof.
  intros Hr Hstep Hx Hu.
  destruct (conversation_update_prefix _ _
              (step_conversation _ _ _ _ _ _ Hstep)) as [Hpre _].
  apply (Hpre i x); [|done].
  pose proof (reachable_ends_with_server _ _ _ _ Hr) as Hends.
  unfold ends_with_server in Hends. rewrite last_turns in Hends.
  unfold slice_last in Hends.
  destruct (list.last (conversation st)) as [y|] eqn:Hl; [|done].
  simpl in Hends. injection Hends as Hy.
  apply last_Some in Hl as [c Hc]. rewrite Hc in Hx |- *.
  rewrite length_app. simpl.
  destruct (decide (i < length c)) as [Hlt|Hge]; [lia|].
  apply lookup_lt_Some in Hx as Hlen. rewrite length_app in Hlen.
  simpl in Hlen. assert (i = length c) as -> by lia.
  rewrite list_lookup_middle in Hx by done. injection Hx as <-. congruence.
Qed.

(** X3: a user turn is never changed, moved or removed: whatever happens after
    it was added, it stays at its index as the object it was. *)
Theorem user_turns_are_kept st evs st' i x :
  reachable st -> run st evs = Some st' ->
  conversation st !! i = Some x -> author x.2 = Some user ->
  conversation st' !! i = Some x.
Proof.
  intros Hr Hrun. revert st Hr Hrun.
  induction evs as [|ev evs IH]; intros st Hr Hrun Hx Hu; simpl in Hrun.
  - by injection Hrun as <-.
  - destruct (after (step st ev)) as [st1|] eqn:Hstep; [|done].
    apply (IH st1); try done.
    + by eapply reachable_step.
    + by eapply user_turn_kept_step.
Qed.

(** X4: a message event of a stream never adds or removes a turn and never
    changes who authored one. *)
Theorem message_keeps_authors st es data st' :
  reachable st -> after (step st (Message es data)) = Some st' ->
  author <$> turns st' = author <$> turns st.
Proof.
  intros Hr Hstep.
  pose proof (reachable_ends_with_server _ _ _ _ Hr) as Hends.
  apply step_after_cases in Hstep as [->|(st'' & -> & Hev)]; [done|].
  rewrite view_effect_turns.
  destruct Hev as (e & _ & _ & [((m & Hc & Ha) & _)| ->]); [|done].
  unfold ends_with_server in Hends. rewrite last_turns in Hends.
  unfold turns. rewrite Hc.
  destruct (slice_last (conversation st)) as [[o' m']|] eqn:Hl; [|done].
  unfold slice_last in Hl. apply last_Some in Hl as [c Hc'].
  rewrite Hc', slice_init_snoc, !fmap_app. simpl in *. by rewrite Ha.
Qed.

(** *** After the sentinel *)

Lemma stream_event_on_closed st ev :
  all_closed st -> is_stream_event ev = true -> step st ev = Completed st.
Proof.
  intros Hall Hev. destruct ev as [q|message|k|es data|es fatal]; try done.
  - simpl. destruct (sources st !! es) as [e|] eqn:He; [|done].
    by rewrite (Hall _ _ He).
  - simpl. destruct (sources st !! es) as [e|] eqn:He; [|done].
    by rewrite (Hall _ _ He).
Qed.

(** X5: the sentinel is final, whenever it comes: it closes the stream, clears
    the session reference and replaces the last turn by itself with
    [isLoading: false], leaving the page's loading flag as it is; no stream
    is open afterwards, and no message or error event changes anything until
    the next session is started. *)
Theorem sentinel_is_final st es c o m evs :
  reachable st -> is_open st es -> conversation st = c ++ [(o, m)] ->
  Forall (fun ev => is_stream_event ev = true) evs ->
  exists st1,
    step st (Message es sentinel) = Completed st1
    /\ turns st1
       = c.*2 ++ [{| author := author m; text := text m; isLoading := false;
                     error := error m; snippets := snippets m |}]
    /\ pageIsLoading st1 = pageIsLoading st
    /\ prevEventSource st1 = None
    /\ all_closed st1
    /\ run st1 evs = Some st1.
Proof.
  intros Hr Ho Hconv Hevs.
  destruct (is_open_inv _ _ Ho) as (e & Hs & Hc).
  destruct (step_done JSON_parse apiUrl deviceId st es e c o m Hs Hc Hconv)
    as (st1 & E & C & S & P & L & _ & _).
  assert (Hall : all_closed st1).
  { intros es' e'. apply (single_stream_all_closed st st1 es S); [|done].
    by eapply reachable_single_stream. }
  exists st1. repeat split; try done.
  - unfold turns. by rewrite C, fmap_app.
  - induction Hevs as [|ev evs Hev _ IH]; [done|].
    simpl. by rewrite (stream_event_on_closed st1 ev Hall Hev).
Qed.

(** *** The calls made on the streams *)

Lemma opened_ids_reverse tr : opened_ids (reverse tr) ≡ₚ opened_ids tr.
Proof. unfold opened_ids. by rewrite reverse_Permutation. Qed.

Lemma closed_ids_reverse tr : closed_ids (reverse tr) ≡ₚ closed_ids tr.
Proof. unfold closed_ids. by rewrite reverse_Permutation. Qed.

Lemma history_ok_open tr url :
  history_ok (reverse tr) ->
  history_ok (reverse (tr ++ [Opened (length (opened_ids tr)) url])).
Proof.
  intros H. rewrite reverse_snoc. simpl. split; [|done].
  by rewrite opened_ids_reverse.
Qed.

Lemma history_ok_close tr es :
  history_ok (reverse tr) ->
  es ∈ opened_ids tr -> es ∉ closed_ids tr ->
  history_ok (reverse (tr ++ [Closed es])).
Proof.
  intros H Ho Hc. rewrite reverse_snoc. simpl.
  by rewrite opened_ids_reverse, closed_ids_reverse.
Qed.

Lemma opened_ids_snoc_open tr es url :
  opened_ids (tr ++ [Opened es url]) = opened_ids tr ++ [es].
Proof. unfold opened_ids. by rewrite omap_app. Qed.

Lemma opened_ids_snoc_close tr es :
  opened_ids (tr ++ [Closed es]) = opened_ids tr.
Proof. unfold opened_ids. by rewrite omap_app, app_nil_r. Qed.

Lemma closed_ids_snoc_open tr es url :
  closed_ids (tr ++ [Opened es url]) = closed_ids tr.
Proof. unfold closed_ids. by rewrite omap_app, app_nil_r. Qed.

Lemma closed_ids_snoc_close tr es :
  closed_ids (tr ++ [Closed es]) = closed_ids tr ++ [es].
Proof. unfold closed_ids. by rewrite omap_app. Qed.

Lemma closed_flag_alter (f : EventSource -> EventSource) (es0 : nat)
    (l : list EventSource) (es : nat) :
  (forall x, es_closed x = true -> es_closed (f x) = true) ->
  es_closed <$> l !! es = Some true ->
  es_closed <$> alter f es0 l !! es = Some true.
Proof.
  intros Hf H. destruct (decide (es0 = es)) as [->|Hne].
  - rewrite list_lookup_alter_eq. destruct (l !! es) as [x|]; [|done].
    simpl in *. injection H as H. by rewrite (Hf _ H).
  - by rewrite list_lookup_alter_ne.
Qed.

Lemma closed_flag_mark (l : list EventSource) (es : nat) :
  es < length l -> es_closed <$> alter mark_closed es l !! es = Some true.
Proof.
  intros Hlt. rewrite list_lookup_alter_eq.
  destruct (lookup_lt_is_Some_2 l es Hlt) as [x ->]. done.
Qed.

Lemma closed_flag_bound (l : list EventSource) es b :
  es_closed <$> l !! es = Some b -> es < length l.
Proof.
  intros H. apply lookup_lt_is_Some. destruct (l !! es); [eauto|done].
Qed.

Lemma trace_invariant_weaken st st' :
  trace st' = trace st -> prevEventSource st' = prevEventSource st ->
  length (sources st') = length (sources st) ->
  (forall es, es_closed <$> sources st !! es = Some true ->
              es_closed <$> sources st' !! es = Some true) ->
  trace_invariant st -> trace_invariant st'.
Proof.
  intros Ht Hp Hl Hf (H1 & H2 & H3 & H4). unfold trace_invariant.
  rewrite Ht, Hp, Hl. split; [done|]. split; [done|]. split; [|done].
  intros es Hes. destruct (H3 _ Hes) as [Ha Hb]. split; [done|by apply Hf].
Qed.

Lemma trace_invariant_view st :
  trace_invariant st -> trace_invariant (view_effect st).
Proof.
  apply trace_invariant_weaken.
  - apply view_effect_trace.
  - apply view_effect_prevEventSource.
  - by rewrite view_effect_sources.
  - intros es. by rewrite view_effect_sources.
Qed.

Lemma trace_invariant_close st st' es :
  trace st' = trace st ++ [Closed es] ->
  sources st' = alter mark_closed es (sources st) ->
  prevEventSource st' <> Some es ->
  (prevEventSource st' = None \/ prevEventSource st' = prevEventSource st) ->
  es < length (sources st) -> es ∉ closed_ids (trace st) ->
  trace_invariant st -> trace_invariant st'.
Proof.
  intros Ht Hs Hne Hp Hlt Hnc (H1 & H2 & H3 & H4). unfold trace_invariant.
  rewrite Ht, Hs, length_alter. split; [|split; [|split]].
  - apply history_ok_close; try done. rewrite H2. apply elem_of_seq. lia.
  - by rewrite opened_ids_snoc_close.
  - intros es' Hes.
    rewrite closed_ids_snoc_close, elem_of_app, list_elem_of_singleton in Hes.
    destruct Hes as [Hes| ->].
    + destruct (H3 _ Hes) as [Ha Hb]. split.
      * destruct Hp as [Hp|Hp]; rewrite Hp; done.
      * by apply closed_flag_alter.
    + split; [done|by apply closed_flag_mark].
  - intros p Hpp. destruct Hp as [Hp|Hp]; rewrite Hp in Hpp; [done|].
    by apply H4.
Qed.

Lemma trace_invariant_open st st' url e :
  trace st' = trace st ++ [Opened (length (sources st)) url] ->
  sources st' = sources st ++ [e] ->
  prevEventSource st' = Some (length (sources st)) ->
  trace_invariant st -> trace_invariant st'.
Proof.
  intros Ht Hs Hp (H1 & H2 & H3 & H4). unfold trace_invariant.
  rewrite Ht, Hs, Hp, length_app. simpl. split; [|split; [|split]].
  - replace (Opened (length (sources st)) url)
      with (Opened (length (opened_ids (trace st))) url)
      by (by rewrite H2, length_seq).
    by apply history_ok_open.
  - rewrite opened_ids_snoc_open, H2.
    replace (length (sources st) + 1) with (S (length (sources st))) by lia.
    by rewrite seq_S.
  - intros es Hes. rewrite closed_ids_snoc_open in Hes.
    destruct (H3 _ Hes) as [_ Hf].
    pose proof (closed_flag_bound _ _ _ Hf) as Hlt. split.
    + intros [= Heq]. lia.
    + by rewrite lookup_app_l.
  - intros p [= <-]. lia.
Qed.

Lemma makeSearch_next_oid q st :
  next_oid (makeSearch apiUrl deviceId q st) = S (next_oid st).
Proof. unfold makeSearch. simpl. by destruct (prevEventSource st). Qed.

Lemma makeSearch_searchId q st :
  searchId (makeSearch apiUrl deviceId q st) = searchId st.
Proof. unfold makeSearch. simpl. by destruct (prevEventSource st). Qed.

Lemma trace_invariant_makeSearch q st :
  trace_invariant st -> trace_invariant (makeSearch apiUrl deviceId q st).
Proof.
  intros H. destruct (prevEventSource st) as [p|] eqn:Hp.
  - pose proof H as (_ & _ & H3 & H4).
    pose (st1 := set_prevEventSource None (close_source p st)).
    assert (H1 : trace_invariant st1).
    { apply (trace_invariant_close st st1 p); try done.
      - by left.
      - by apply H4.
      - intros Hc. by destruct (H3 _ Hc). }
    eapply (trace_invariant_open st1); [| | |exact H1].
    + rewrite makeSearch_trace, Hp. simpl.
      by rewrite length_alter, <- app_assoc.
    + rewrite makeSearch_sources, Hp. done.
    + rewrite makeSearch_prevEventSource. simpl. by rewrite length_alter.
  - eapply (trace_invariant_open st); [| | |exact H].
    + rewrite makeSearch_trace, Hp. done.
    + rewrite makeSearch_sources, Hp. done.
    + by rewrite makeSearch_prevEventSource.
Qed.

Lemma trace_invariant_step st ev st' :
  single_stream st ->
  after (step st ev) = Some st' -> trace_invariant st -> trace_invariant st'.
Proof.
  intros Hsingle Hstep H.
  apply step_after_cases in Hstep as [->|(st'' & -> & Hev)]; [done|].
  apply trace_invariant_view.
  destruct ev as [q|message|k|es data|es fatal].
  - subst st''. apply trace_invariant_makeSearch.
    by apply (trace_invariant_weaken st).
  - subst st''. apply trace_invariant_makeSearch.
    by apply (trace_invariant_weaken st).
  - subst st''. by apply (trace_invariant_weaken st).
  - destruct Hev as (e & Hs & Hc & [Hm| ->]); [|done].
    destruct Hm as (_ & Hsrc & Hprev & _ & _ & _ & _ & _ & Htr).
    case_decide as Hd.
    + apply (trace_invariant_close st st'' es); try done.
      * by rewrite Hprev.
      * left. by rewrite Hprev.
      * by eapply lookup_lt_Some.
      * intros Hin. destruct H as (_ & _ & H3 & _).
        destruct (H3 _ Hin) as [_ Hf]. rewrite Hs in Hf. simpl in Hf.
        congruence.
    + apply (trace_invariant_weaken st); try done.
      * by rewrite Htr, app_nil_r.
      * by rewrite Hsrc, length_alter.
      * intros es' Hf. rewrite Hsrc. by apply closed_flag_alter.
  - destruct Hev as (e & Hs & Hc & ->).
    apply (trace_invariant_weaken st); try done.
    + by destruct fatal.
    + by destruct fatal.
    + destruct fatal; simpl; [by rewrite length_alter|done].
    + intros es' Hf. destruct fatal; simpl; [|done].
      by apply closed_flag_alter.
Qed.

Lemma trace_invariant_mount q : trace_invariant (mount apiUrl deviceId q).
Proof.
  unfold mount. apply trace_invariant_view.
  apply (trace_invariant_weaken (makeSearch apiUrl deviceId q (first_render q)));
    try done.
  apply trace_invariant_makeSearch. unfold trace_invariant. simpl.
  split; [done|]. split; [done|]. split; [|done].
  intros es Hes. by apply elem_of_nil in Hes.
Qed.

Lemma reachable_trace_invariant st : reachable st -> trace_invariant st.
Proof.
  induction 1 as [q|st st' ev Hr IH Hstep].
  - apply trace_invariant_mount.
  - eapply trace_invariant_step; [|done|done].
    by eapply reachable_single_stream.
Qed.


(** *** The session identifier *)

Lemma onmessage_searchId es i data st st' :
  onmessage JSON_parse es i data st = Completed st' ->
  searchId st' = searchId st
  \/ (i = 0 /\ data <> sentinel
      /\ exists newData Err,
          JSON_parse data = Some newData
          /\ getProp newData "Err" = Val Err /\ truthy Err = false
          /\ getProp newData "query_id" = Val (searchId st')).
Proof.
  unfold onmessage, lift_render, setConversation, replace_last.
  case_decide as Hd.
  - intros [= <-]. by left.
  - destruct (JSON_parse data) as [newData|]; [|done].
    case_decide as Hi.
    + destruct (getProp newData "Err") as [Err|] eqn:He; [|done].
      destruct (truthy Err) eqn:Ht.
      * intros [= <-]. by left.
      * rewrite (getPropOpt_Some _ _ _ He).
        destruct (getProp newData "query_id") as [qid|] eqn:Hq; [|done].
        simpl. destruct (header_snippets newData); [|done]. simpl.
        intros [= <-]. right. repeat split; try done.
        exists newData, Err. by rewrite Hq.
    + destruct (slice_last (conversation st)) as [[o m]|]; [|done]. simpl.
      destruct (getProp newData "Ok"); [|done]. simpl.
      intros [= <-]. by left.
Qed.

(** X7: [searchId] changes only when the first event of a session is a record
    without a truthy [Err], and then to that record's [query_id]: a submit,
    a token, the sentinel or an error leave it as it is, so after a submit
    it still names the previous session until the new header comes. *)
Theorem searchId_changes_only_on_header st ev st' :
  after (step st ev) = Some st' -> searchId st' <> searchId st ->
  exists es data e newData Err,
    ev = Message es data /\ data <> sentinel
    /\ sources st !! es = Some e /\ es_closed e = false /\ es_i e = 0
    /\ JSON_parse data = Some newData
    /\ getProp newData "Err" = Val Err /\ truthy Err = false
    /\ getProp newData "query_id" = Val (searchId st').
Proof.
  intros Hstep Hne.
  destruct ev as [q|message|k|es data|es fatal]; simpl in Hstep.
  - exfalso. case_decide; simpl in Hstep; injection Hstep as <-; [done|].
    by rewrite view_effect_searchId, makeSearch_searchId in Hne.
  - exfalso. injection Hstep as <-. unfold handleNewMessage in Hne.
    by rewrite view_effect_searchId, makeSearch_searchId in Hne.
  - exfalso. injection Hstep as <-. by rewrite view_effect_searchId in Hne.
  - destruct (sources st !! es) as [e|] eqn:Hs;
      [|exfalso; by injection Hstep as <-].
    destruct (es_closed e) eqn:Hc; [exfalso; by injection Hstep as <-|].
    destruct (onmessage JSON_parse es (es_i e) data st)
      as [st1|x st1|x] eqn:Ho; simpl in Hstep; [| |done];
      injection Hstep as <-; rewrite view_effect_searchId in Hne |- *.
    + apply onmessage_searchId in Ho
        as [Heq|(Hi & Hd & newData & Err & Hp & He & Ht & Hq)]; [done|].
      by exists es, data, e, newData, Err.
    + exfalso. by apply onmessage_uncaught in Ho as [_ ->].
  - exfalso. destruct (sources st !! es) as [e|] eqn:Hs;
      [|by injection Hstep as <-].
    destruct (es_closed e) eqn:Hc; [by injection Hstep as <-|].
    simpl in Hstep. injection Hstep as <-.
    rewrite view_effect_searchId in Hne. by destruct fatal.
Qed.

(** *** What the page shows *)

Lemma oids_fresh_append st st' new :
  conversation st' = conversation st ++ new ->
  (forall o m, (o, m) ∈ new -> o < next_oid st') ->
  next_oid st <= next_oid st' ->
  oids_fresh st -> oids_fresh st'.
Proof.
  intros Hc Hnew Hle H o m Hin. rewrite Hc, elem_of_app in Hin.
  destruct Hin as [Hin|Hin]; [|by eapply Hnew].
  pose proof (H _ _ Hin). lia.
Qed.

Lemma oids_fresh_replace st st' x :
  conversation st' = slice_init (conversation st) ++ [x] ->
  x.1 < next_oid st' -> next_oid st <= next_oid st' ->
  oids_fresh st -> oids_fresh st'.
Proof.
  intros Hc Hx Hle H o m Hin.
  rewrite Hc, elem_of_app, list_elem_of_singleton in Hin.
  destruct Hin as [Hin| <-]; [|done].
  apply subseteq_take in Hin. pose proof (H _ _ Hin). lia.
Qed.

Lemma oids_fresh_makeSearch q st :
  oids_fresh st -> oids_fresh (makeSearch apiUrl deviceId q st).
Proof.
  apply (oids_fresh_append _ _ [(next_oid st, placeholder)]).
  - apply makeSearch_conversation.
  - intros o m Hin. apply list_elem_of_singleton in Hin. injection Hin as -> _.
    rewrite makeSearch_next_oid. lia.
  - rewrite makeSearch_next_oid. lia.
Qed.

Lemma oids_fresh_step st ev st' :
  after (step st ev) = Some st' -> oids_fresh st -> oids_fresh st'.
Proof.
  intros Hstep H.
  apply step_after_cases in Hstep as [->|(st'' & -> & Hev)]; [done|].
  assert (Hview : oids_fresh st'' -> oids_fresh (view_effect st'')).
  { intros H' o m. rewrite view_effect_conversation, view_effect_next_oid.
    apply H'. }
  apply Hview.
  destruct ev as [q|message|k|es data|es fatal].
  - subst st''. by apply oids_fresh_makeSearch.
  - subst st''. apply oids_fresh_makeSearch.
    apply (oids_fresh_append st _ [(next_oid st, user_turn message)]);
      simpl; try done; [|lia].
    intros o m Hin. apply list_elem_of_singleton in Hin. injection Hin as -> _.
    lia.
  - by subst st''.
  - destruct Hev as (e & _ & _ & [Hm| ->]); [|done].
    destruct Hm as ((m & Hc & _) & _ & _ & _ & Hn & _).
    apply (oids_fresh_replace st st'' _ Hc); simpl; try done; lia.
  - destruct Hev as (e & _ & _ & ->).
    apply (oids_fresh_append st _ [(next_oid st, failure_turn)]).
    + by destruct fatal.
    + intros o m Hin. apply list_elem_of_singleton in Hin.
      injection Hin as -> _. destruct fatal; simpl; lia.
    + destruct fatal; simpl; lia.
    + done.
Qed.

Lemma reachable_oids_fresh st : reachable st -> oids_fresh st.
Proof.
  induction 1 as [q|st st' ev _ IH Hstep].
  - intros o m Hin. rewrite mount_conversation in Hin.
    assert (Hn : next_oid (mount apiUrl deviceId q) = 2)
      by (unfold mount; by rewrite view_effect_next_oid).
    rewrite Hn.
    apply elem_of_cons in Hin as [[= -> _]|Hin]; [lia|].
    apply list_elem_of_singleton in Hin. injection Hin as -> _. lia.
  - by eapply oids_fresh_step.
Qed.

Lemma lastServerResponse_elem conv x :
  lastServerResponse conv = Some x -> x ∈ conv.
Proof.
  unfold lastServerResponse. intros H. apply last_Some in H as [l Hl].
  assert (Hin : x ∈ filter (fun o => author o.2 = Some server) conv).
  { rewrite Hl. apply elem_of_app. right. by apply list_elem_of_singleton. }
  by apply list_elem_of_filter in Hin as [_ Hin].
Qed.

(** After a step that leaves a newly made object at the end of the
    conversation, the viewed index is the last one. *)
Lemma view_at_new_last st ev st' c o m :
  reachable st -> after (step st ev) = Some st' ->
  conversation st' = c ++ [(o, m)] -> next_oid st <= o ->
  currentlyViewedSnippets st' = Z.of_nat (length c)
  /\ viewed_turn st' = Some m.
Proof.
  intros Hr Hstep Hconv Hle.
  assert (Hr' : reachable st') by (by eapply reachable_step).
  pose proof (lastServerResponse_last _
                (reachable_ends_with_server _ _ _ _ Hr')) as Hlast.
  rewrite Hconv, last_snoc in Hlast.
  pose proof (reachable_view_settled _ _ _ _ Hr) as Hset.
  destruct (step_view_frame _ _ _ _ _ _ Hset Hstep) as (st'' & -> & Hseen & _).
  rewrite view_effect_conversation in Hconv.
  assert (Hcvs : currentlyViewedSnippets (view_effect st'')
                 = Z.of_nat (length c)).
  { rewrite view_effect_currentlyViewedSnippets, Hconv, Hlast, Hseen, Hset.
    rewrite decide_False.
    - rewrite length_app. simpl. lia.
    - simpl. intros Heq.
      destruct (lastServerResponse (conversation st)) as [[o' m']|] eqn:Hl;
        [|done].
      simpl in Heq. injection Heq as <-.
      apply lastServerResponse_elem in Hl.
      pose proof (reachable_oids_fresh _ Hr _ _ Hl). lia. }
  split; [done|]. unfold viewed_turn. rewrite Hcvs.
  rewrite decide_True by lia. rewrite Nat2Z.id, view_effect_conversation.
  by rewrite Hconv, list_lookup_middle.
Qed.

(** X8: after every submit the page shows the skeleton and counts no result: the
    view has moved to the new placeholder, which has no snippets, and the
    page is loading. *)
Theorem submit_shows_skeleton st message :
  reachable st ->
  exists st',
    step st (NewMessage message) = Completed st'
    /\ currentlyViewedSnippets st'
       = (Z.of_nat (length (conversation st')) - 1)%Z
    /\ viewed_turn st' = Some placeholder
    /\ resultsNumber st' = 0
    /\ page_body st' = Skeleton.
Proof.
  intros Hr. exists (view_effect (handleNewMessage apiUrl deviceId message st)).
  split; [done|].
  assert (Hconv : conversation
                    (view_effect (handleNewMessage apiUrl deviceId message st))
                  = (conversation st ++ [(next_oid st, user_turn message)])
                    ++ [(S (next_oid st), placeholder)]).
  { rewrite view_effect_conversation. unfold handleNewMessage.
    by rewrite makeSearch_conversation. }
  destruct (view_at_new_last st (NewMessage message) _ _ _ _ Hr eq_refl Hconv)
    as [Hcvs Hv]; [lia|].
  repeat split.
  - rewrite Hcvs, Hconv, !length_app. simpl. lia.
  - done.
  - unfold resultsNumber. by rewrite Hv.
  - unfold page_body. rewrite view_effect_pageIsLoading.
    unfold handleNewMessage. by rewrite makeSearch_pageIsLoading.
Qed.

(** X9: when the header of a session brings snippets, the page counts them and
    shows them, mapped, in place of the skeleton; a header without any
    leaves the body empty. *)
Theorem header_shows_snippets st es data fs raws c o m :
  reachable st ->
  is_open st es -> es_i <$> sources st !! es = Some 0 ->
  data <> sentinel -> JSON_parse data = Some (JObj fs) ->
  assoc "Err" fs = None ->
  (assoc "snippets" fs = Some (JArr raws)
   /\ Forall (fun raw => raw <> JNull) raws)
  \/ (assoc "snippets" fs = None /\ raws = []) ->
  conversation st = c ++ [(o, m)] ->
  exists st',
    step st (Message es data) = Completed st'
    /\ currentlyViewedSnippets st'
       = (Z.of_nat (length (conversation st')) - 1)%Z
    /\ resultsNumber st' = length raws
    /\ page_body st'
       = match raws with
         | [] => Nothing
         | _ => SemanticSearch (SnippetMapper <$> raws)
         end.
Proof.
  intros Hr Ho Hi Hd Hp He Hsn Hconv.
  destruct (is_open_inv _ _ Ho) as (e & Hs & Hc).
  rewrite Hs in Hi. injection Hi as Hi.
  assert (Hm : header_snippets (JObj fs) = Val (SnippetMapper <$> raws)).
  { destruct Hsn as [[Ha Hall]|[Ha ->]].
    - rewrite (header_snippets_array _ _ Ha). by apply map_snippets_mapper.
    - by rewrite (header_snippets_absent _ Ha). }
  edestruct (step_header JSON_parse apiUrl deviceId st es e data (JObj fs))
    as (st' & E & C & _ & _ & L & _ & _);
    [exact Hs | exact Hc | exact Hi | exact Hd | exact Hp
    | simpl; by rewrite He | reflexivity | reflexivity | exact Hm | exact Hconv
    | ].
  assert (Hafter : after (step st (Message es data)) = Some st')
    by (by rewrite E).
  destruct (view_at_new_last st _ st' _ _ _ Hr Hafter C) as [Hcvs Hv]; [lia|].
  exists st'. repeat split; try done.
  - rewrite Hcvs, C, length_app. simpl. lia.
  - unfold resultsNumber. rewrite Hv. simpl. by rewrite length_fmap.
  - unfold page_body. rewrite L, Hv. simpl. by destruct raws.
Qed.

(** X10: a list is shown only when the page is not loading and the viewed index
    lies in the conversation, the list is not empty, it is the viewed turn's
    snippets, and the header counts exactly its items. *)
Theorem shown_list_is_counted st l :
  page_body st = SemanticSearch l ->
  pageIsLoading st = false
  /\ l <> []
  /\ resultsNumber st = length l
  /\ (0 <= currentlyViewedSnippets st
      < Z.of_nat (length (conversation st)))%Z
  /\ viewed_turn st ≫= snippets = Some l.
Proof.
  unfold page_body, resultsNumber.
  destruct (pageIsLoading st); [done|].
  destruct (viewed_turn st ≫= snippets) as [[|d ds]|] eqn:Hv; try done.
  intros [= <-]. repeat split; try done.
  - unfold viewed_turn in Hv. by case_decide.
  - unfold viewed_turn in Hv. case_decide; [|done].
    destruct (conversation st !! Z.to_nat (currentlyViewedSnippets st))
      eqn:Hl; [|done].
    apply lookup_lt_Some in Hl. unfold Obj in *. lia.
Qed.

(** X11: a viewed index outside the conversation is harmless: when the caller
    sets one, the conversation is untouched, the header counts no result and
    no list is shown. *)
Theorem view_out_of_range st k :
  reachable st ->
  (k < 0 \/ Z.of_nat (length (conversation st)) <= k)%Z ->
  exists st',
    step st (ViewSnippets k) = Completed st'
    /\ currentlyViewedSnippets st' = k
    /\ conversation st' = conversation st
    /\ viewed_turn st' = None
    /\ resultsNumber st' = 0
    /\ forall l, page_body st' <> SemanticSearch l.
Proof.
  intros Hr Hk.
  pose proof (reachable_view_settled _ _ _ _ Hr) as Hset.
  exists (set_currentlyViewedSnippets k st).
  assert (Hv : viewed_turn (set_currentlyViewedSnippets k st) = None).
  { unfold viewed_turn. simpl. case_decide; [|done].
    rewrite lookup_ge_None_2; [done|]. unfold Obj in *. lia. }
  split.
  { simpl. f_equal. by apply view_effect_settled. }
  repeat split; try done.
  - unfold resultsNumber. by rewrite Hv.
  - intros l. unfold page_body. rewrite Hv. simpl.
    by destruct (pageIsLoading st).
Qed.

End Coverage.

(** *** The address of the stream *)

Lemma string_length_app (a b : string) :
  String.length (a +:+ b) = String.length a + String.length b.
Proof.
  induction a as [|x a IH]; [done|].
  change (S (String.length (a +:+ b)) = S (String.length a + String.length b)).
  by rewrite IH.
Qed.

Lemma substring_all (s : string) : String.substring 0 (String.length s) s = s.
Proof.
  induction s as [|x s IH]; [done|].
  change (String x (String.substring 0 (String.length s) s) = String x s).
  by rewrite IH.
Qed.

Lemma substring_prefix (a b : string) :
  String.substring 0 (String.length a) (a +:+ b) = a.
Proof.
  induction a as [|x a IH]; [by destruct b|].
  change (String x (String.substring 0 (String.length a) (a +:+ b))
          = String x a).
  by rewrite IH.
Qed.

Lemma substring_skip (a b : string) n :
  String.substring (String.length a) n (a +:+ b) = String.substring 0 n b.
Proof. induction a as [|x a IH]; [done|]. exact IH. Qed.

Lemma index_of_prefix (a s : string) :
  String.prefix a s = true -> String.index 0 a s = Some 0.
Proof.
  intros H. destruct s as [|x s].
  - destruct a as [|y a]; [done|].
    apply String.prefix_correct in H. discriminate H.
  - change (String.index 0 a (String x s))
      with (if String.prefix a (String x s) then Some 0
            else match String.index 0 a s with
                 | Some n => Some (S n)
                 | None => None
                 end).
    by rewrite H.
Qed.

Lemma index_prefix (a b : string) : String.index 0 a (a +:+ b) = Some 0.
Proof.
  apply index_of_prefix, String.prefix_correct, substring_prefix.
Qed.

Lemma replace_first_prefix (pat rest : string) :
  replace_first pat (pat +:+ rest) = rest.
Proof.
  unfold replace_first. rewrite index_prefix.
  replace (String.substring 0 0 (pat +:+ rest)) with EmptyString
    by (by destruct (pat +:+ rest)).
  simpl. rewrite substring_skip, string_length_app.
  replace (String.length pat + String.length rest - String.length pat)
    with (String.length rest) by lia.
  apply substring_all.
Qed.

(** X12: with an API address that starts with "https:", every stream is opened
    on the address without that scheme, followed by "/answer?q=", the
    question as it was typed, "&user_id=" and the device identifier; a
    later "https:" in the address is kept. *)
Theorem stream_url_drops_scheme (rest deviceId question : string) st :
  es_url
    <$> sources (makeSearch ("https:" +:+ rest) deviceId question st)
          !! length (sources st)
  = Some (rest +:+ "/answer?q=" +:+ question +:+ "&user_id=" +:+ deviceId).
Proof.
  rewrite makeSearch_sources, list_lookup_middle.
  - simpl. unfold answer_url. by rewrite replace_first_prefix.
  - destruct (prevEventSource st); [by rewrite length_alter|done].
Qed.

(** *** The further properties on the sample session *)


Lemma uncaught_changes_nothing_witness :
  reachable sample_parse sample_api sample_device mounted_hi
  /\ sample_step mounted_hi (Message 0 (wire_text JNull))
     = Uncaught TypeError mounted_hi
  /\ sample_run mounted_hi
       [Message 0 (wire_text JNull); Message 0 (wire_text header_q1)]
     = sample_run mounted_hi [Message 0 (wire_text header_q1)]
  /\ exists es data,
      Message 0 (wire_text JNull) = Message es data
      /\ data <> sentinel /\ is_open mounted_hi es.
Proof.
  assert (Hstep : sample_step mounted_hi (Message 0 (wire_text JNull))
                  = Uncaught TypeError mounted_hi)
    by (vm_compute; reflexivity).
  split; [apply reachable_mounted_hi|]. split; [exact Hstep|].
  exact (proj2 (uncaught_changes_nothing sample_parse sample_api sample_device
                  mounted_hi (Message 0 (wire_text JNull)) TypeError
                  mounted_hi [Message 0 (wire_text header_q1)]
                  reachable_mounted_hi Hstep)).
Defined.

Lemma user_turns_are_kept_witness :
  reachable sample_parse sample_api sample_device mounted_hi
  /\ sample_run mounted_hi
       [Message 0 (wire_text header_q1); Message 0 (wire_text ok_hello)]
     = Some after_hello
  /\ conversation mounted_hi !! 0 = Some (0, user_turn "hi")
  /\ conversation after_hello !! 0 = Some (0, user_turn "hi").
Proof.
  assert (Hrun : sample_run mounted_hi
                   [Message 0 (wire_text header_q1);
                    Message 0 (wire_text ok_hello)]
                 = Some after_hello) by (vm_compute; reflexivity).
  assert (Hx : conversation mounted_hi !! 0 = Some (0, user_turn "hi"))
    by (vm_compute; reflexivity).
  split; [apply reachable_mounted_hi|]. split; [exact Hrun|].
  split; [exact Hx|].
  exact (user_turns_are_kept sample_parse sample_api sample_device mounted_hi
           _ after_hello 0 (0, user_turn "hi") reachable_mounted_hi Hrun Hx
           eq_refl).
Defined.

Lemma message_keeps_authors_witness :
  reachable sample_parse sample_api sample_device after_header
  /\ after (sample_step after_header (Message 0 (wire_text ok_hello)))
     = Some after_hello
  /\ author <$> turns after_hello = author <$> turns after_header.
Proof.
  assert (Hstep : after (sample_step after_header
                           (Message 0 (wire_text ok_hello)))
                  = Some after_hello) by (vm_compute; reflexivity).
  split; [apply reachable_after_header|]. split; [exact Hstep|].
  exact (message_keeps_authors sample_parse sample_api sample_device
           after_header 0 (wire_text ok_hello) after_hello
           reachable_after_header Hstep).
Defined.

Lemma sentinel_is_final_witness :
  reachable sample_parse sample_api sample_device after_hello
  /\ is_open after_hello 0
  /\ exists st1,
      sample_step after_hello (Message 0 sentinel) = Completed st1
      /\ turns st1
         = [user_turn "hi"]
           ++ [{| author := Some server; text := Some "Hello";
                  isLoading := false; error := None;
                  snippets := Some [SnippetMapper s1; SnippetMapper s2] |}]
      /\ pageIsLoading st1 = pageIsLoading after_hello
      /\ prevEventSource st1 = None
      /\ all_closed st1
      /\ sample_run st1
           [Message 0 (wire_text ok_world); Error 0 false; Message 0 sentinel]
         = Some st1.
Proof.
  assert (Ho : is_open after_hello 0) by (vm_compute; reflexivity).
  split; [apply reachable_after_hello|]. split; [exact Ho|].
  apply (sentinel_is_final sample_parse sample_api sample_device after_hello 0
           [(0, user_turn "hi")] 3
           {| author := Some server; text := Some "Hello";
              isLoading := true; error := None;
              snippets := Some [SnippetMapper s1; SnippetMapper s2] |}
           [Message 0 (wire_text ok_world); Error 0 false; Message 0 sentinel]
           reachable_after_hello Ho);
    [vm_compute; reflexivity|repeat constructor].
Defined.


Lemma searchId_changes_only_on_header_witness :
  after (sample_step mounted_hi (Message 0 (wire_text header_q1)))
  = Some after_header
  /\ searchId after_header <> searchId mounted_hi
  /\ exists es data e newData Err,
      Message 0 (wire_text header_q1) = Message es data /\ data <> sentinel
      /\ sources mounted_hi !! es = Some e /\ es_closed e = false
      /\ es_i e = 0
      /\ sample_parse data = Some newData
      /\ getProp newData "Err" = Val Err /\ truthy Err = false
      /\ getProp newData "query_id" = Val (searchId after_header).
Proof.
  assert (Hstep : after (sample_step mounted_hi
                           (Message 0 (wire_text header_q1)))
                  = Some after_header) by (vm_compute; reflexivity).
  assert (Hne : searchId after_header <> searchId mounted_hi)
    by (vm_compute; discriminate).
  split; [exact Hstep|]. split; [exact Hne|].
  exact (searchId_changes_only_on_header sample_parse sample_api sample_device
           mounted_hi (Message 0 (wire_text header_q1)) after_header
           Hstep Hne).
Defined.

Lemma submit_shows_skeleton_witness :
  reachable sample_parse sample_api sample_device after_hello
  /\ exists st',
      sample_step after_hello (NewMessage "and then?") = Completed st'
      /\ currentlyViewedSnippets st'
         = (Z.of_nat (length (conversation st')) - 1)%Z
      /\ viewed_turn st' = Some placeholder
      /\ resultsNumber st' = 0
      /\ page_body st' = Skeleton.
Proof.
  split; [apply reachable_after_hello|].
  exact (submit_shows_skeleton sample_parse sample_api sample_device
           after_hello "and then?" reachable_after_hello).
Defined.

Lemma header_shows_snippets_witness :
  reachable sample_parse sample_api sample_device mounted_hi
  /\ is_open mounted_hi 0
  /\ exists st',
      sample_step mounted_hi (Message 0 (wire_text header_q1)) = Completed st'
      /\ currentlyViewedSnippets st'
         = (Z.of_nat (length (conversation st')) - 1)%Z
      /\ resultsNumber st' = 2
      /\ page_body st' = SemanticSearch (SnippetMapper <$> [s1; s2]).
Proof.
  assert (Ho : is_open mounted_hi 0) by (vm_compute; reflexivity).
  split; [apply reachable_mounted_hi|]. split; [exact Ho|].
  apply (header_shows_snippets sample_parse sample_api sample_device
           mounted_hi 0 (wire_text header_q1)
           [("query_id", JStr "q1"); ("snippets", JArr [s1; s2])] [s1; s2]
           [(0, user_turn "hi")] 1 placeholder reachable_mounted_hi Ho);
    try (vm_compute; reflexivity); try (vm_compute; discriminate).
  left. split; [reflexivity|]. repeat constructor; discriminate.
Defined.

Lemma shown_list_is_counted_witness :
  page_body after_header = SemanticSearch (SnippetMapper <$> [s1; s2])
  /\ pageIsLoading after_header = false
  /\ SnippetMapper <$> [s1; s2] <> []
  /\ resultsNumber after_header = length (SnippetMapper <$> [s1; s2])
  /\ (0 <= currentlyViewedSnippets after_header
      < Z.of_nat (length (conversation after_header)))%Z
  /\ viewed_turn after_header ≫= snippets
     = Some (SnippetMapper <$> [s1; s2]).
Proof.
  assert (Hb : page_body after_header
               = SemanticSearch (SnippetMapper <$> [s1; s2]))
    by (vm_compute; reflexivity).
  split; [exact Hb|].
  exact (shown_list_is_counted after_header _ Hb).
Defined.

Lemma view_out_of_range_witness :
  reachable sample_parse sample_api sample_device after_header
  /\ (7 < 0 \/ Z.of_nat (length (conversation after_header)) <= 7)%Z
  /\ exists st',
      sample_step after_header (ViewSnippets 7) = Completed st'
      /\ currentlyViewedSnippets st' = 7%Z
      /\ conversation st' = conversation after_header
      /\ viewed_turn st' = None
      /\ resultsNumber st' = 0
      /\ forall l, page_body st' <> SemanticSearch l.
Proof.
  assert (Hk : (7 < 0 \/ Z.of_nat (length (conversation after_header)) <= 7)%Z)
    by (right; vm_compute; discriminate).
  split; [apply reachable_after_header|]. split; [exact Hk|].
  exact (view_out_of_range sample_parse sample_api sample_device after_header
           7 reachable_after_header Hk).
Defined.

(** ** The command bar context provider *)

Section CommandBarFacts.

Variables (FocusedItem ActiveStep : Type).
Variable INITIAL_step : ActiveStep.

Local Abbreviation Provider := (CommandBar.Provider FocusedItem ActiveStep).
Local Abbreviation Action := (CommandBar.Action FocusedItem ActiveStep).

Lemma same_object_refl {A : Type} (x : CommandBar.ref A) :
  CommandBar.same_object x x = true.
Proof. unfold CommandBar.same_object. by rewrite bool_decide_eq_true. Qed.

Lemma same_nullable_refl {A : Type} (x : option (CommandBar.ref A)) :
  CommandBar.same_nullable x x = true.
Proof. destruct x; [apply same_object_refl|done]. Qed.

Lemma same_bool_true (a b : bool) :
  CommandBar.same_bool a b = true <-> a = b.
Proof. unfold CommandBar.same_bool. apply bool_decide_eq_true. Qed.

Lemma step_up_to_date (st : Provider) (a : Action) :
  CommandBar.up_to_date st -> CommandBar.up_to_date (CommandBar.step st a).
Proof.
  destruct st as [f v c h [gi g] [ci cs] [fi fv] n].
  unfold CommandBar.up_to_date. simpl.
  intros (-> & -> & -> & Hg & Hc & Hf).
  destruct a as [x|b|x|]; unfold CommandBar.step, CommandBar.render,
    CommandBar.useMemo; simpl; rewrite ?same_object_refl, ?same_nullable_refl;
    unfold CommandBar.same_bool; rewrite ?bool_decide_eq_true_2 by done.
  - destruct (CommandBar.same_nullable f x) eqn:E; simpl;
      rewrite ?same_nullable_refl, ?E; simpl; repeat split; try done; lia.
  - case_bool_decide; simpl; repeat split; try done; lia.
  - destruct (CommandBar.same_object c x) eqn:E; simpl;
      rewrite ?same_object_refl, ?E; simpl; repeat split; try done; lia.
  - simpl. repeat split; try done; lia.
Qed.

Lemma first_render_up_to_date step_object :
  CommandBar.up_to_date
    (CommandBar.first_render FocusedItem INITIAL_step step_object).
Proof. unfold CommandBar.up_to_date. simpl. repeat split; lia. Qed.

Lemma step_handlers (st : Provider) (a : Action) :
  CommandBar.handlersContextValue (CommandBar.step st a)
  = CommandBar.handlersContextValue st.
Proof.
  destruct a; unfold CommandBar.step, CommandBar.render, CommandBar.useMemo;
    repeat case_match; done.
Qed.

(** X13: whatever the consumers do after the first render, the handlers context
    value is the object of the first render, and each of the other three
    context values holds the state as it is: no consumer is handed a stale
    value. *)
Theorem contexts_follow_state step_object (actions : list Action) :
  let st :=
    CommandBar.run
      (CommandBar.first_render FocusedItem INITIAL_step step_object) actions in
  CommandBar.handlersContextValue st
  = CommandBar.handlersContextValue
      (CommandBar.first_render FocusedItem INITIAL_step step_object)
  /\ (CommandBar.generalContextValue st).2 = CommandBar.isVisible st
  /\ (CommandBar.currentStepContextValue st).2 = CommandBar.chosenStep st
  /\ (CommandBar.footerValuesContextValue st).2 = CommandBar.focusedItem st.
Proof.
  simpl. unfold CommandBar.run.
  assert (H : forall (st : Provider),
             CommandBar.up_to_date st ->
             CommandBar.up_to_date (foldl CommandBar.step st actions)
             /\ CommandBar.handlersContextValue (foldl CommandBar.step st actions)
                = CommandBar.handlersContextValue st).
  { induction actions as [|a actions IH]; intros st Hst; [done|].
    simpl. destruct (IH _ (step_up_to_date st a Hst)) as [H1 H2].
    split; [done|]. by rewrite H2, step_handlers. }
  destruct (H _ (first_render_up_to_date step_object))
    as [(Hg & Hc & Hf & _) Hh].
  by rewrite Hh.
Qed.

Lemma useMemo_changed {A : Type} (same : A -> A -> bool)
    (prev : CommandBar.ref A) (dep : A) (n : nat) :
  prev.1 < n ->
  ((CommandBar.useMemo same prev dep n).1.1 <> prev.1
   <-> same prev.2 dep = false).
Proof.
  intros Hlt. unfold CommandBar.useMemo. destruct (same prev.2 dep); simpl.
  - split; [intros H; by destruct H|done].
  - split; [done|]. intros _. lia.
Qed.

Lemma render_memos (st : Provider) focused visible chosen :
  exists n1 n2,
    CommandBar.next_object st <= n1 /\ CommandBar.next_object st <= n2
    /\ CommandBar.currentStepContextValue
         (CommandBar.render focused visible chosen st)
       = (CommandBar.useMemo CommandBar.same_object
            (CommandBar.currentStepContextValue st) chosen
            (CommandBar.next_object st)).1
    /\ CommandBar.footerValuesContextValue
         (CommandBar.render focused visible chosen st)
       = (CommandBar.useMemo CommandBar.same_nullable
            (CommandBar.footerValuesContextValue st) focused n1).1
    /\ CommandBar.generalContextValue
         (CommandBar.render focused visible chosen st)
       = (CommandBar.useMemo CommandBar.same_bool
            (CommandBar.generalContextValue st) visible n2).1.
Proof.
  unfold CommandBar.render.
  destruct (CommandBar.useMemo CommandBar.same_object
              (CommandBar.currentStepContextValue st) chosen
              (CommandBar.next_object st)) as [cs n1] eqn:E1.
  destruct (CommandBar.useMemo CommandBar.same_nullable
              (CommandBar.footerValuesContextValue st) focused n1)
    as [fv n2] eqn:E2.
  destruct (CommandBar.useMemo CommandBar.same_bool
              (CommandBar.generalContextValue st) visible n2)
    as [g n3] eqn:E3.
  simpl. exists n1, n2. rewrite E2, E3. simpl.
  assert (H1 : CommandBar.next_object st <= n1).
  { unfold CommandBar.useMemo in E1. case_match; simplify_eq; lia. }
  assert (H2 : n1 <= n2).
  { unfold CommandBar.useMemo in E2. case_match; simplify_eq; lia. }
  repeat split; try done; lia.
Qed.

(** X14: a setter makes a new object of the one context value that holds its
    state, and only when it is given another value than the state has; the
    handlers context value is never made anew, and a render caused from
    outside makes nothing anew. *)
Theorem setters_are_isolated (st : Provider) (a : Action) :
  CommandBar.up_to_date st ->
  CommandBar.handlersContextValue (CommandBar.step st a)
  = CommandBar.handlersContextValue st
  /\ ((CommandBar.generalContextValue (CommandBar.step st a)).1
      <> (CommandBar.generalContextValue st).1
      <-> exists b, a = CommandBar.SetIsVisible b
                    /\ b <> CommandBar.isVisible st)
  /\ ((CommandBar.currentStepContextValue (CommandBar.step st a)).1
      <> (CommandBar.currentStepContextValue st).1
      <-> exists v, a = CommandBar.SetChosenStep v
                    /\ v.1 <> (CommandBar.chosenStep st).1)
  /\ ((CommandBar.footerValuesContextValue (CommandBar.step st a)).1
      <> (CommandBar.footerValuesContextValue st).1
      <-> exists v, a = CommandBar.SetFocusedItem v
                    /\ CommandBar.same_nullable (CommandBar.focusedItem st) v
                       = false).
Proof.
  intros (Hg & Hc & Hf & Hgn & Hcn & Hfn).
  split; [apply step_handlers|].
  assert (Hmemos : forall focused visible chosen,
            ((CommandBar.generalContextValue
                (CommandBar.render focused visible chosen st)).1
             <> (CommandBar.generalContextValue st).1
             <-> CommandBar.same_bool (CommandBar.isVisible st) visible = false)
            /\ ((CommandBar.currentStepContextValue
                   (CommandBar.render focused visible chosen st)).1
                <> (CommandBar.currentStepContextValue st).1
                <-> CommandBar.same_object (CommandBar.chosenStep st) chosen
                    = false)
            /\ ((CommandBar.footerValuesContextValue
                   (CommandBar.render focused visible chosen st)).1
                <> (CommandBar.footerValuesContextValue st).1
                <-> CommandBar.same_nullable (CommandBar.focusedItem st) focused
                    = false)).
  { intros focused visible chosen.
    destruct (render_memos st focused visible chosen)
      as (n1 & n2 & H1 & H2 & -> & -> & ->).
    rewrite <- Hg, <- Hc, <- Hf.
    repeat split; apply useMemo_changed; lia. }
  assert (Hb : forall b b', CommandBar.same_bool b b' = false <-> b' <> b).
  { intros b b'. unfold CommandBar.same_bool.
    rewrite bool_decide_eq_false. split; congruence. }
  assert (Ho : forall (x y : CommandBar.ref ActiveStep),
            CommandBar.same_object x y = false <-> y.1 <> x.1).
  { intros x y. unfold CommandBar.same_object.
    rewrite bool_decide_eq_false. split; congruence. }
  destruct a as [x|b|x|]; unfold CommandBar.step;
    match goal with
    | |- context [CommandBar.render ?f ?v ?c st] =>
        destruct (Hmemos f v c) as (Eg & Ec & Ef)
    end; rewrite Eg, Ec, Ef, ?same_object_refl, ?same_nullable_refl,
           ?(proj2 (same_bool_true _ _) eq_refl).
  - split; [|split].
    + split; [done|]. by intros (? & [=] & _).
    + split; [done|]. by intros (? & [=] & _).
    + destruct (CommandBar.same_nullable (CommandBar.focusedItem st) x) eqn:E.
      * rewrite same_nullable_refl. split; [done|].
        intros (y & [= <-] & Hy). congruence.
      * split; [eauto|done].
  - split; [|split].
    + rewrite Hb. split; [eauto|]. by intros (y & [= <-] & Hy).
    + split; [done|]. by intros (? & [=] & _).
    + split; [done|]. by intros (? & [=] & _).
  - split; [|split].
    + split; [done|]. by intros (? & [=] & _).
    + destruct (CommandBar.same_object (CommandBar.chosenStep st) x) eqn:E.
      * rewrite same_object_refl. split; [done|].
        intros (y & [= <-] & Hy). apply Ho in Hy. congruence.
      * split; [|done]. intros _. exists x. split; [done|]. by apply Ho.
    + split; [done|]. by intros (? & [=] & _).
  - split; [|split]; (split; [done|]); by intros (? & [=] & _).
Qed.

End CommandBarFacts.

Lemma setters_are_isolated_witness :
  CommandBar.up_to_date (CommandBar.first_render string 0 7)
  /\ (CommandBar.generalContextValue
        (CommandBar.step (CommandBar.first_render string 0 7)
           (CommandBar.SetIsVisible true))).1
     <> (CommandBar.generalContextValue (CommandBar.first_render string 0 7)).1.
Proof.
  assert (H : CommandBar.up_to_date (CommandBar.first_render string 0 7))
    by apply (first_render_up_to_date string nat 0 7).
  split; [exact H|].
  apply (proj1 (proj2 (setters_are_isolated string nat
                         (CommandBar.first_render string 0 7)
                         (CommandBar.SetIsVisible true) H))).
  exists true. split; [reflexivity|discriminate].
Defined.

(** ** The file modal *)

Section FileModalFacts.

Variables (V FileItem Ranges Mode : Type).
Variables (item_relative_path item_repo_ref : FileItem -> string).
Variable mapFileResult : FileItem -> gmap string V.
Variable mapRanges : Ranges -> V.
Variable urlencode : string -> string.

Local Abbreviation Modal := (FileModal.Modal V Mode).
Local Abbreviation step :=
  (FileModal.step V FileItem Ranges Mode item_relative_path item_repo_ref
     mapFileResult mapRanges urlencode).
Local Abbreviation run :=
  (FileModal.run V FileItem Ranges Mode item_relative_path item_repo_ref
     mapFileResult mapRanges urlencode).

Lemma modal_run_app (st : Modal) evs evs' :
  run st (evs ++ evs') = run st evs ≫= fun st1 => run st1 evs'.
Proof.
  revert st. induction evs as [|ev evs IH]; intros st; [done|].
  simpl. destruct (step st ev); [apply IH|done].
Qed.

(** X15: the hoverable ranges of a file are put into whatever result is open when
    they arrive, not into the result they were asked for: all other fields
    of the open result stay, and when nothing is open (the modal was closed
    in between) a result that has the ranges and nothing else is opened. *)
Theorem hoverables_merge_into_current (st st1 : Modal) evs ranges :
  run st evs = Some st1 ->
  exists st2 result,
    run st (evs ++ [FileModal.HoverablesResolved ranges]) = Some st2
    /\ FileModal.openResult st2 = Some result
    /\ result !! "hoverableRanges" = Some (mapRanges ranges)
    /\ (forall k, k <> "hoverableRanges" ->
                  result !! k = FileModal.openResult st1 ≫= fun r => r !! k)
    /\ (FileModal.openResult st1 = None ->
        result = {[ "hoverableRanges" := mapRanges ranges ]})
    /\ FileModal.calls st2 = FileModal.calls st1.
Proof.
  intros Hrun.
  exists (FileModal.onHoverables mapRanges ranges st1),
    (<["hoverableRanges" := mapRanges ranges]>
       (default ∅ (FileModal.openResult st1))).
  split; [by rewrite modal_run_app, Hrun|].
  split; [done|]. split; [apply lookup_insert_eq|].
  split; [|split; [|done]].
  - intros k Hk. rewrite lookup_insert_ne by done.
    by destruct (FileModal.openResult st1).
  - intros ->. done.
Qed.

(** X16: opening a file from a result: a click on a result with a path asks for
    the file; when the response comes, its first item is opened, the browser
    is sent to the scroll position of that click (to no position when the
    click had no line numbers, whatever an earlier click had), and the
    hoverables of that item are asked for. *)
Theorem open_file_flow (st : Modal) repo c p lineNumber item items :
  exists st',
    run st [FileModal.ResultClick repo (Some (String c p)) lineNumber;
            FileModal.FileData (item :: items)] = Some st'
    /\ FileModal.calls st'
       = FileModal.calls st
         ++ [FileModal.FileSearch
               ("open:true repo:" +:+ repo +:+ " path:" +:+ String c p);
             FileModal.NavigateSearch
               (FileModal.scroll_search urlencode
                  (FileModal.scroll_target lineNumber));
             FileModal.GetHoverables (item_relative_path item)
               (item_repo_ref item)]
    /\ FileModal.openResult st' = Some (mapFileResult item)
    /\ FileModal.scrollToLine st' = FileModal.scroll_target lineNumber
    /\ (lineNumber = None ->
        FileModal.scroll_search urlencode (FileModal.scroll_target lineNumber)
        = EmptyString)
    /\ (forall a b,
          lineNumber = Some [String a b] ->
          FileModal.scroll_search urlencode (FileModal.scroll_target lineNumber)
          = "?scroll_line_index=" +:+ urlencode (String a b)).
Proof.
  eexists. split; [reflexivity|]. simpl.
  split; [by rewrite <- !app_assoc|].
  split; [done|]. split; [done|].
  split; [by intros ->|]. by intros a b ->.
Qed.

End FileModalFacts.

Lemma hoverables_merge_into_current_witness :
  FileModal.run nat string nat bool id id
    (fun item => {[ "path" := String.length item ]}) id id
    {| FileModal.mode := true; FileModal.scrollToLine := None;
       FileModal.openResult := None; FileModal.calls := [] |}
    [FileModal.FileData ["src/main.rs"]; FileModal.ResultClosed]
  = Some {| FileModal.mode := true; FileModal.scrollToLine := None;
            FileModal.openResult := None;
            FileModal.calls :=
              [FileModal.NavigateSearch "";
               FileModal.GetHoverables "src/main.rs" "src/main.rs"] |}
  /\ exists st2 result,
      FileModal.run nat string nat bool id id
        (fun item => {[ "path" := String.length item ]}) id id
        {| FileModal.mode := true; FileModal.scrollToLine := None;
           FileModal.openResult := None; FileModal.calls := [] |}
        ([FileModal.FileData ["src/main.rs"]; FileModal.ResultClosed]
         ++ [FileModal.HoverablesResolved 5]) = Some st2
      /\ FileModal.openResult st2 = Some result
      /\ result = {[ "hoverableRanges" := 5 ]}.
Proof.
  assert (Hrun :
    FileModal.run nat string nat bool id id
      (fun item => {[ "path" := String.length item ]}) id id
      {| FileModal.mode := true; FileModal.scrollToLine := None;
         FileModal.openResult := None; FileModal.calls := [] |}
      [FileModal.FileData ["src/main.rs"]; FileModal.ResultClosed]
    = Some {| FileModal.mode := true; FileModal.scrollToLine := None;
              FileModal.openResult := None;
              FileModal.calls :=
                [FileModal.NavigateSearch "";
                 FileModal.GetHoverables "src/main.rs" "src/main.rs"] |})
    by reflexivity.
  split; [exact Hrun|].
  destruct (hoverables_merge_into_current nat string nat bool id id
              (fun item => {[ "path" := String.length item ]}) id id
              _ _ _ 5 Hrun)
    as (st2 & result & H1 & H2 & _ & _ & H5 & _).
  exists st2, result. split; [exact H1|]. split; [exact H2|].
  by apply H5.
Defined.

(** ** More on the conversation *)

Section Authors.

Variable JSON_parse : string -> option json.
Variables apiUrl deviceId : string.

Local Abbreviation step := (step JSON_parse apiUrl deviceId).
Local Abbreviation reachable := (reachable JSON_parse apiUrl deviceId).

Lemma well_authored_step st ev st' :
  reachable st -> after (step st ev) = Some st' ->
  Forall well_authored (turns st) -> Forall well_authored (turns st').
Proof.
  intros Hr Hstep H.
  pose proof (reachable_ends_with_server _ _ _ _ Hr) as Hends.
  apply step_after_cases in Hstep as [->|(st'' & -> & Hev)]; [done|].
  rewrite view_effect_turns.
  destruct ev as [q|message|k|es data|es fatal].
  - subst st''. rewrite turns_makeSearch. apply Forall_app. split; [done|].
    constructor; [by right|constructor].
  - subst st''. rewrite turns_handleNewMessage. apply Forall_app.
    split; [done|]. constructor; [left; by eexists|].
    constructor; [by right|constructor].
  - by subst st''.
  - destruct Hev as (e & _ & _ & [((m & Hc & Ha) & _)| ->]); [|done].
    unfold ends_with_server in Hends. rewrite last_turns in Hends.
    unfold turns in *. rewrite Hc, fmap_app. apply Forall_app. split.
    + unfold slice_init. rewrite fmap_take. by apply Forall_take.
    + constructor; [|constructor]. right. simpl. rewrite Ha.
      destruct (slice_last (conversation st)) as [[o' m']|]; [|done].
      simpl in *. congruence.
  - destruct Hev as (e & _ & _ & ->). unfold turns in *.
    destruct fatal; simpl; rewrite fmap_app; apply Forall_app;
      (split; [done|]); (constructor; [by right|constructor]).
Qed.

(** X17: every turn of the conversation has an author, and a user turn is
    never more than the text that was submitted: it is not loading and has
    no error and no snippets, whatever the streams deliver. *)
Theorem turns_are_well_authored st m :
  reachable st -> m ∈ turns st ->
  (exists t, m = user_turn t) \/ author m = Some server.
Proof.
  intros Hr. revert m. apply Forall_forall.
  induction Hr as [q|st st' ev Hr IH Hstep].
  - unfold turns. rewrite mount_conversation. simpl.
    constructor; [left; by eexists|]. constructor; [by right|constructor].
  - by eapply well_authored_step.
Qed.

(** X18: when the page is given a new query, the search is run again for
    it: the stream of the session before is closed, a new one is opened and
    the page is loading, but only a server placeholder is appended, no user
    turn; the same query again does nothing. *)
Theorem query_change_restarts_search st q :
  reachable st ->
  (q = query st -> step st (QueryProp q) = Completed st)
  /\ (q <> query st ->
      exists st',
        step st (QueryProp q) = Completed st'
        /\ query st' = q
        /\ conversation st' = conversation st ++ [(next_oid st, placeholder)]
        /\ pageIsLoading st' = true
        /\ awaiting_header st' (length (sources st))
        /\ forall es, is_open st' es -> es = length (sources st)).
Proof.
  intros Hr. split.
  - intros ->. simpl. by rewrite decide_True.
  - intros Hne. simpl. rewrite decide_False by done. simpl.
    eexists. split; [reflexivity|].
    unfold awaiting_header, is_open.
    rewrite view_effect_query, view_effect_conversation,
      view_effect_pageIsLoading, view_effect_sources, view_effect_turns.
    rewrite makeSearch_conversation, makeSearch_pageIsLoading,
      turns_makeSearch, last_snoc.
    assert (Hnew : sources (makeSearch apiUrl deviceId q (set_query q st))
                     !! length (sources st)
                   = Some {| es_url := answer_url apiUrl deviceId q;
                             es_closed := false; es_i := 0 |}).
    { rewrite makeSearch_sources. apply list_lookup_middle. simpl.
      destruct (prevEventSource st); [by rewrite length_alter|done]. }
    rewrite Hnew. repeat split; try done.
    + unfold makeSearch. simpl. by destruct (prevEventSource st).
    + intros es Ho. apply lookup_fmap_Some in Ho as (e & He & Hc).
      pose proof (single_stream_makeSearch apiUrl deviceId q (set_query q st)
                    (reachable_single_stream _ _ _ _ Hr) es e He Hc) as Hp.
      rewrite makeSearch_prevEventSource in Hp. by injection Hp.
Qed.

End Authors.

Lemma turns_are_well_authored_witness :
  reachable sample_parse sample_api sample_device after_hello
  /\ user_turn "hi" ∈ turns after_hello
  /\ ((exists t, user_turn "hi" = user_turn t)
      \/ author (user_turn "hi") = Some server).
Proof.
  assert (Hin : user_turn "hi" ∈ turns after_hello)
    by (vm_compute; apply list_elem_of_here).
  split; [apply reachable_after_hello|]. split; [exact Hin|].
  exact (turns_are_well_authored sample_parse sample_api sample_device
           after_hello (user_turn "hi") reachable_after_hello Hin).
Defined.

Lemma query_change_restarts_search_witness :
  reachable sample_parse sample_api sample_device after_hello
  /\ "bye" <> query after_hello
  /\ exists st',
      sample_step after_hello (QueryProp "bye") = Completed st'
      /\ query st' = "bye"
      /\ conversation st'
         = conversation after_hello ++ [(next_oid after_hello, placeholder)]
      /\ pageIsLoading st' = true
      /\ awaiting_header st' (length (sources after_hello))
      /\ forall es, is_open st' es -> es = length (sources after_hello).
Proof.
  assert (Hne : "bye" <> query after_hello) by (vm_compute; discriminate).
  split; [apply reachable_after_hello|]. split; [exact Hne|].
  exact (proj2 (query_change_restarts_search sample_parse sample_api
                  sample_device after_hello "bye" reachable_after_hello) Hne).
Defined.
